(** * Cause translation of the AWS X-Ray exporter

    A shallow embedding of
    [exporter/awsxrayexporter/internal/translator/cause.go]:
    [makeCause], [parseException] and the five stack-trace parsers
    ([fillJavaStacktrace], [fillPythonStacktrace],
    [fillJavaScriptStacktrace], [fillDotnetStacktrace],
    [fillGoStacktrace]), together with the string primitives of the Go
    standard library they are written with.

    Go strings are byte strings and are modelled by [string] (a list of
    8-bit [ascii]); Go [int] (64 bit) and [int64] by [Z]; a Go run-time
    panic by the [Panic] result. *)

From Stdlib Require Import ZArith Ascii String List Bool Lia.
From stdpp Require Import base option list strings gmap fin_maps.

Open Scope string_scope.
Open Scope list_scope.
Open Scope Z_scope.

(** ** Results: a Go call either returns or panics *)

Inductive RuntimeError :=
| SliceBoundsOutOfRange
| IndexOutOfRange.

Inductive Res (A : Type) :=
| Ok (a : A)
| Panic (e : RuntimeError).
Arguments Ok {A} a.
Arguments Panic {A} e.

#[global] Instance Res_ret : MRet Res := fun _ a => Ok a.
#[global] Instance Res_bind : MBind Res := fun _ _ f m =>
  match m with
  | Ok a => f a
  | Panic e => Panic e
  end.
#[global] Instance Res_fmap : FMap Res := fun _ _ f m =>
  match m with
  | Ok a => Ok (f a)
  | Panic e => Panic e
  end.

Definition returns {A} (m : Res A) : bool :=
  match m with Ok _ => true | Panic _ => false end.

(** ** Go string primitives *)

Module GoStr.

Definition tab : ascii := "009"%char.
Definition lf : ascii := "010"%char.
Definition ff : ascii := "012"%char.
Definition cr : ascii := "013"%char.

(** [len(s)] *)
Definition len (s : string) : Z := Z.of_nat (String.length s).

(** [strings.HasPrefix(s, prefix)] *)
Definition HasPrefix (s prefix : string) : bool := String.prefix prefix s.

(** [strings.IndexByte(s, c)]: first index of [c], [-1] when absent. *)
Fixpoint IndexByte (s : string) (c : ascii) : Z :=
  match s with
  | EmptyString => -1
  | String a s' =>
      if Ascii.eqb a c then 0
      else let i := IndexByte s' c in
           if i <? 0 then -1 else i + 1
  end.

(** [strings.LastIndexByte(s, c)]: last index of [c], [-1] when absent. *)
Fixpoint LastIndexByte (s : string) (c : ascii) : Z :=
  match s with
  | EmptyString => -1
  | String a s' =>
      let i := LastIndexByte s' c in
      if 0 <=? i then i + 1
      else if Ascii.eqb a c then 0 else -1
  end.

(** [strings.Index(s, substr)] *)
Fixpoint Index (s substr : string) : Z :=
  if String.prefix substr s then 0
  else match s with
       | EmptyString => -1
       | String _ s' =>
           let i := Index s' substr in
           if i <? 0 then -1 else i + 1
       end.

(** [strings.Contains(s, substr)] *)
Definition Contains (s substr : string) : bool := 0 <=? Index s substr.

(** [strings.Split(s, sep)] for a non-empty [sep] (every call site passes a
    non-empty constant): the pieces between the non-overlapping occurrences
    of [sep], found left to right.  [skip] counts the bytes of an
    occurrence of [sep] still to be passed over, [cur] is the piece being
    read, last byte first. *)
Fixpoint splitAux (sep : string) (skip : nat) (cur : list ascii) (s : string)
  : list string :=
  match s with
  | EmptyString => [string_of_list_ascii (rev cur)]
  | String c s' =>
      match skip with
      | S k => splitAux sep k cur s'
      | O =>
          if String.prefix sep s
          then string_of_list_ascii (rev cur)
               :: splitAux sep (String.length sep - 1) [] s'
          else splitAux sep 0 (c :: cur) s'
      end
  end.

Definition Split (s sep : string) : list string := splitAux sep 0 [] s.

(** [strings.Join(elems, sep)] *)
Fixpoint Join (elems : list string) (sep : string) : string :=
  match elems with
  | [] => EmptyString
  | [e] => e
  | e :: es => e +:+ sep +:+ Join es sep
  end.

(** [s[lo:hi]]: panics unless [0 <= lo <= hi <= len(s)]. *)
Definition slice (s : string) (lo hi : Z) : Res string :=
  if (0 <=? lo) && (lo <=? hi) && (hi <=? len s)
  then Ok (String.substring (Z.to_nat lo) (Z.to_nat (hi - lo)) s)
  else Panic SliceBoundsOutOfRange.

(** [s[lo:]] *)
Definition sliceFrom (s : string) (lo : Z) : Res string := slice s lo (len s).

(** [s[i]]: panics unless [0 <= i < len(s)]. *)
Definition byteAt (s : string) (i : Z) : Res ascii :=
  if (0 <=? i) && (i <? len s)
  then match String.get (Z.to_nat i) s with
       | Some c => Ok c
       | None => Panic IndexOutOfRange
       end
  else Panic IndexOutOfRange.

(** [l[i]] on a slice of strings. *)
Definition index (l : list string) (i : Z) : Res string :=
  if (0 <=? i) && (i <? Z.of_nat (length l))
  then match l !! Z.to_nat i with
       | Some x => Ok x
       | None => Panic IndexOutOfRange
       end
  else Panic IndexOutOfRange.

(** [l[lo:hi]] on a slice of strings (within its length, which is what the
    one call site can reach: [hi] is below a valid index). *)
Definition sliceList (l : list string) (lo hi : Z) : Res (list string) :=
  if (0 <=? lo) && (lo <=? hi) && (hi <=? Z.of_nat (length l))
  then Ok (take (Z.to_nat (hi - lo)) (drop (Z.to_nat lo) l))
  else Panic SliceBoundsOutOfRange.

(** *** [strconv.Atoi]

    The value [strconv.Atoi] returns, and whether it returned a nil error.
    An optional sign followed by one or more decimal digits; a syntax error
    gives [0]; a value outside the 64-bit [int] range gives the nearest
    bound (and a range error). *)

Definition isDigit (c : ascii) : bool :=
  let n := nat_of_ascii c in (48 <=? n)%nat && (n <=? 57)%nat.

Fixpoint digitsValue (acc : Z) (s : string) : option Z :=
  match s with
  | EmptyString => Some acc
  | String c s' =>
      if isDigit c
      then digitsValue (acc * 10 + (Z.of_nat (nat_of_ascii c) - 48)) s'
      else None
  end.

Definition maxInt : Z := 2 ^ 63 - 1.
Definition minInt : Z := - 2 ^ 63.

Definition Atoi (s : string) : Z * bool :=
  let '(neg, body) :=
    match s with
    | String "+" s' => (false, s')
    | String "-" s' => (true, s')
    | _ => (false, s)
    end in
  match body with
  | EmptyString => (0, false)
  | _ =>
      match digitsValue 0 body with
      | None => (0, false)
      | Some un =>
          if negb neg && (maxInt <? un) then (maxInt, false)
          else if neg && (- minInt <? un) then (minInt, false)
          else (if neg then - un else un, true)
      end
  end.

End GoStr.
Import GoStr.

(** ** [textproto.Reader] over a string

    [ReadLine] returns the text up to the next line feed, without it and
    without a carriage return just before it; text after the last line feed
    is a last line, returned as it is; on exhausted input [ReadLine]
    returns the empty string and an error.  The reader is modelled by the
    list of lines still to be returned. *)

Module Reader.

Definition stripCR (cur : list ascii) : list ascii :=
  match cur with
  | c :: cur' => if Ascii.eqb c cr then cur' else cur
  | [] => []
  end.

(** [cur] is the line being read, last byte first. *)
Fixpoint linesAux (cur : list ascii) (s : string) : list string :=
  match s with
  | EmptyString =>
      match cur with
      | [] => []
      | _ => [string_of_list_ascii (rev cur)]
      end
  | String c s' =>
      if Ascii.eqb c lf
      then string_of_list_ascii (rev (stripCR cur)) :: linesAux [] s'
      else linesAux (c :: cur) s'
  end.

Definition NewReader (s : string) : list string := linesAux [] s.

(** [line, err := r.ReadLine()]: the line, the reader afterwards, and
    whether [err] is nil. *)
Definition ReadLine (r : list string) : string * list string * bool :=
  match r with
  | [] => (EmptyString, [], false)
  | l :: r' => (l, r', true)
  end.

End Reader.
Import Reader.

(** ** Data model *)

(** [awsxray.StackFrame]; the three fields the translator sets. *)
Record StackFrame := mkStackFrame {
  Path : string;
  Label : string;
  Line : Z
}.

(** [awsxray.Exception]; the fields the translator sets.  [ID], [Type] and
    [Message] are always assigned (through [aws.String]); [Cause] is a nil
    pointer until a nested exception is linked.  [Stack] is a Go slice: the
    nil slice and the empty slice both are the empty list. *)
Record Exception := mkException {
  ID : string;
  Type_ : string;
  Message : string;
  Stack : list StackFrame;
  Cause : option string
}.

Definition withStack (e : Exception) (st : list StackFrame) : Exception :=
  mkException (ID e) (Type_ e) (Message e) st (Cause e).

Definition withCause (e : Exception) (c : string) : Exception :=
  mkException (ID e) (Type_ e) (Message e) (Stack e) (Some c).

(** [exception.Stack = append(exception.Stack, stack)] *)
Definition appendFrame (e : Exception) (f : StackFrame) : Exception :=
  withStack e (Stack e ++ [f]).

Inductive CauseType := CauseTypeExceptionID | CauseTypeObject.

(** [awsxray.CauseData] with its embedded [CauseObject]. *)
Record CauseData := mkCauseData {
  CauseData_Type : CauseType;
  Exceptions : list Exception
}.

(** [pdata.AttributeValue]: a tagged union; [StringVal] and [IntVal]
    return the zero value on a value of another type. *)
Inductive AttributeValue :=
| AttributeValueString (s : string)
| AttributeValueInt (i : Z)
| AttributeValueBool (b : bool)
| AttributeValueEmpty.

Definition StringVal (v : AttributeValue) : string :=
  match v with AttributeValueString s => s | _ => EmptyString end.

Definition IntVal (v : AttributeValue) : Z :=
  match v with AttributeValueInt i => i | _ => 0 end.

(** [pdata.AttributeMap]: a sequence of key-value pairs; [Get] returns the
    first entry with the key. *)
Definition AttributeMap := list (string * AttributeValue).

Fixpoint Get (m : AttributeMap) (key : string) : option AttributeValue :=
  match m with
  | [] => None
  | (k, v) :: m' => if String.eqb k key then Some v else Get m' key
  end.

Inductive StatusCode := StatusCodeUnset | StatusCodeOk | StatusCodeError.

#[global] Instance StatusCode_eq_dec : EqDecision StatusCode.
Proof. solve_decision. Defined.

Record SpanStatus := mkSpanStatus {
  Status_Code : StatusCode;
  Status_Message : string
}.

Record SpanEvent := mkSpanEvent {
  Event_Name : string;
  Event_Attributes : AttributeMap
}.

Record Span := mkSpan {
  Span_Status : SpanStatus;
  Span_Events : list SpanEvent;
  Span_Attributes : AttributeMap
}.

Record Resource := mkResource {
  Resource_Attributes : AttributeMap
}.

(** Semantic-convention keys ([semconv/v1.5.0]). *)
Definition AttributeTelemetrySDKLanguage : string := "telemetry.sdk.language".
Definition AttributeExceptionType : string := "exception.type".
Definition AttributeExceptionMessage : string := "exception.message".
Definition AttributeExceptionStacktrace : string := "exception.stacktrace".
Definition AttributeHTTPStatusCode : string := "http.status_code".

Definition ExceptionEventName : string := "exception".

(** ** What a call depends on besides its arguments

    The random source behind [newSegmentID], the Go maps on the heap, and
    the order in which the run time presents the entries of a map to a
    [range] loop.  [idSource g k] is the hex string of the [k]-th
    identifier the random source hands out and [idCount g] the number
    handed out so far.  A Go map value is a reference: [heap w] gives the
    contents of the allocated maps; a location outside it reads as the nil
    map.  [rangeOrder w m] lists the entries of [m] as a [range] loop meets
    them. *)

Record IdGen := mkIdGen {
  idSource : nat -> string;
  idCount : nat
}.

Definition loc := nat.

Record World := mkWorld {
  gen : IdGen;
  heap : gmap loc (gmap string AttributeValue);
  rangeOrder : gmap string AttributeValue -> list (string * AttributeValue)
}.

(** What Go promises of a [range] loop over a map: every entry is met
    once, in an order left open. *)
Definition fairRange (w : World) : Prop :=
  ∀ m, rangeOrder w m ≡ₚ map_to_list m.

Definition withGen (w : World) (g : IdGen) : World :=
  mkWorld g (heap w) (rangeOrder w).

Definition withHeap (w : World)
    (h : gmap loc (gmap string AttributeValue)) : World :=
  mkWorld (gen w) h (rangeOrder w).

(** Code that draws identifiers: the parsers. *)
Definition G (A : Type) : Type := IdGen -> Res (A * IdGen).

#[global] Instance G_ret : MRet G := fun _ a g => Ok (a, g).
#[global] Instance G_bind : MBind G := fun _ _ f m g =>
  match m g with
  | Ok (a, g') => f a g'
  | Panic e => Panic e
  end.

(** A step that does not draw. *)
Definition lift {A} (r : Res A) : G A := fun g =>
  match r with
  | Ok a => Ok (a, g)
  | Panic e => Panic e
  end.

(** Modelled from the spec: [newSegmentID] (segment.go, not part of the
    sources at hand) is the opaque primitive that produces a random
    fixed-width hex identifier; [newSegmentID().HexString()] takes the next
    one from the random source. *)
Definition newSegmentIDHex : G string := fun g =>
  Ok (idSource g (idCount g), mkIdGen (idSource g) (S (idCount g))).

(** Code that also reads and allocates maps: [makeCause]. *)
Definition M (A : Type) : Type := World -> Res (A * World).

#[global] Instance M_ret : MRet M := fun _ a w => Ok (a, w).
#[global] Instance M_bind : MBind M := fun _ _ f m w =>
  match m w with
  | Ok (a, w') => f a w'
  | Panic e => Panic e
  end.

Definition liftG {A} (m : G A) : M A := fun w =>
  match m (gen w) with
  | Ok (a, g') => Ok (a, withGen w g')
  | Panic e => Panic e
  end.

(** The contents of the map a reference points to. *)
Definition mapAt (w : World) (l : loc) : gmap string AttributeValue :=
  default ∅ (heap w !! l).

(** The entries a [range] loop over the map meets, in order. *)
Definition rangeMap (l : loc) : M (list (string * AttributeValue)) := fun w =>
  Ok (rangeOrder w (mapAt w l), w).

(** [make(map[string]pdata.AttributeValue)] filled with [m]: a location
    that was not allocated before. *)
Definition newMap (m : gmap string AttributeValue) : M loc := fun w =>
  let l := fresh (dom (heap w)) in
  Ok (l, withHeap w (<[l := m]> (heap w))).

(** ** Nested causes: what the Java and the Python parser share

    [exceptions = append(exceptions, awsxray.Exception{...})] followed by
    [exceptions[len(exceptions)-2].Cause = newException.ID],
    [exception.Cause = newException.ID] and [exception = newException].
    [exception] is the index of the element the pointer designates.  The
    write through [exception] uses the pointer taken before the append:
    when the append moved the slice it lands in the abandoned copy,
    otherwise on element [exception].  [parseException] passes a slice of
    length and capacity one, for which [exception] is the element before
    the new one in both cases, the one the first write has set already. *)
Definition appendCause (exceptions : list Exception) (exception : nat)
    (causeType causeMessage : string) : G (list Exception * nat) :=
  id ← newSegmentIDHex;
  let exceptions := exceptions ++ [mkException id causeType causeMessage [] None] in
  let exceptions :=
    alter (λ e, withCause e id) (length exceptions - 2)%nat exceptions in
  let exceptions := alter (λ e, withCause e id) exception exceptions in
  mret (exceptions, (length exceptions - 1)%nat).

Definition addFrame (fr : option StackFrame) (exception : nat)
    (exceptions : list Exception) : list Exception :=
  match fr with
  | Some f => alter (λ e, appendFrame e f) exception exceptions
  | None => exceptions
  end.

(** ** Convention A: [fillJavaStacktrace] *)

Definition tabAt : string := String tab "at ".
Definition causedBy : string := "Caused by: ".

(** [parenIdx >= 0 && line[len(line)-1] == ')'] *)
Definition closesParen (line : string) (parenIdx : Z) : Res bool :=
  if 0 <=? parenIdx
  then c ← byteAt line (len line - 1); mret (Ascii.eqb c ")")
  else mret false.

(** The body of the [HasPrefix(line, "\tat ")] branch: the frame of the
    line, when it has one. *)
Definition javaFrame (line : string) : Res (option StackFrame) :=
  let parenIdx := IndexByte line "(" in
  ok ← closesParen line parenIdx;
  if ok : bool then
    label ← slice line (len tabAt) parenIdx;
    let slashIdx := IndexByte label "/" in
    label ← (if 0 <=? slashIdx then sliceFrom label (slashIdx + 1) else mret label);
    path ← slice line (parenIdx + 1) (len line - 1);
    let colonIdx := IndexByte path ":" in
    if 0 <=? colonIdx then
      lineStr ← sliceFrom path (colonIdx + 1);
      path ← slice path 0 colonIdx;
      mret (Some (mkStackFrame path label (Atoi lineStr).1))
    else mret (Some (mkStackFrame path label 0))
  else mret None.

(** The test that ends the peeking at message lines. *)
Definition javaIsFrame (line : string) : Res bool :=
  if HasPrefix line tabAt
  then closesParen line (IndexByte line "(")
  else mret false.

(** The type and the start of the message of a ["Caused by: "] line. *)
Definition javaCauseHead (line : string) : Res (string * string) :=
  causeType ← sliceFrom line (len causedBy);
  let colonIdx := IndexByte causeType ":" in
  if 0 <=? colonIdx then
    causeMessage ← sliceFrom causeType (colonIdx + 2);
    causeType ← slice causeType 0 colonIdx;
    mret (causeType, causeMessage)
  else mret (causeType, EmptyString).

Section JavaPeek.
(** The outer loop, entered again at the frame line the peeking stopped
    at. *)
Variable continue :
  string -> list string -> list Exception -> nat -> G (list Exception).
Variables (exceptions : list Exception) (exception : nat).
Variable causeType : string.

(** The inner [for] loop of the ["Caused by: "] branch and what follows
    it up to [continue]: message lines are read until a frame line or the
    end of the input, and the cause is appended. *)
Fixpoint javaPeek (r : list string) (causeMessage : string) {struct r}
  : G (list Exception) :=
  match r with
  | [] =>
      (* [ReadLine] fails: the cause is appended, and the next turn of
         the outer loop, on the empty line, fails to read too *)
      '(exceptions, _) ← appendCause exceptions exception causeType causeMessage;
      mret exceptions
  | line :: r =>
      stop ← lift (javaIsFrame line);
      if stop : bool then
        '(exceptions, exception) ←
           appendCause exceptions exception causeType causeMessage;
        continue line r exceptions exception
      else javaPeek r (causeMessage +:+ line)
  end.
End JavaPeek.

(** The [for] loop: [line] is the line at hand, [r] the reader. *)
Fixpoint javaLoop (line : string) (r : list string)
    (exceptions : list Exception) (exception : nat) {struct r}
  : G (list Exception) :=
  if HasPrefix line tabAt then
    fr ← lift (javaFrame line);
    let exceptions := addFrame fr exception exceptions in
    match r with
    | [] => mret exceptions
    | line :: r => javaLoop line r exceptions exception
    end
  else if HasPrefix line causedBy then
    '(causeType, causeMessage) ← lift (javaCauseHead line);
    javaPeek javaLoop exceptions exception causeType r causeMessage
  else
    match r with
    | [] => mret exceptions
    | line :: r => javaLoop line r exceptions exception
    end.

Definition fillJavaStacktrace (stacktrace : string)
    (exceptions : list Exception) : G (list Exception) :=
  let r := NewReader stacktrace in
  let '(_, r, _) := ReadLine r in
  match exceptions with
  | [] => lift (Panic IndexOutOfRange)
  | _ =>
      let '(line, r, ok) := ReadLine r in
      if ok : bool then
        javaLoop line r (alter (λ e, withStack e []) 0%nat exceptions) 0%nat
      else mret exceptions
  end.

(** ** Convention B: [fillPythonStacktrace] *)

Definition fileMark : string := "  File ".
Definition duringHandling : string :=
  "During handling of the above exception, another exception occurred:".

(** The body of the [HasPrefix(line, "  File ")] branch. *)
Definition pythonFrame (line : string) : Res (option StackFrame) :=
  match Split line "," with
  | [filePart; linePart; inPart] =>
      file ← slice filePart 8 (len filePart - 1);
      lineNumber ← (if HasPrefix linePart " line "
                    then lineStr ← sliceFrom linePart 6; mret (Atoi lineStr).1
                    else mret 0);
      label ← (if HasPrefix inPart " in " then sliceFrom inPart 4
               else mret EmptyString);
      mret (Some (mkStackFrame file label lineNumber))
  | _ => mret None
  end.

Section PythonSearch.
(** The outer loop, entered again at the ["  File "] line found; its
    argument is that line's index plus one. *)
Variable continue : nat -> list Exception -> nat -> G (list Exception).
Variables (lines : list string) (lineIdx : nat).
Variables (exceptions : list Exception) (exception : nat).

(** The ["During handling"] branch: the search downwards for the next
    ["  File "] line, [k] being [nextFileLineIdx + 1], and the cause made
    of the lines in between. *)
Fixpoint pythonSearch (k : nat) {struct k} : G (list Exception) :=
  match k with
  | O => mret exceptions
  | S nextFileLineIdx =>
      l ← lift (index lines (Z.of_nat nextFileLineIdx));
      if HasPrefix l fileMark then
        between ← lift (sliceList lines (Z.of_nat nextFileLineIdx + 2)
                                        (Z.of_nat lineIdx - 1));
        let message := Join between (String lf EmptyString) in
        let colonIdx := IndexByte message ":" in
        if colonIdx <? 0 then mret exceptions
        else
          causeType ← lift (slice message 0 colonIdx);
          causeMessage ← lift (sliceFrom message (colonIdx + 2));
          '(exceptions, exception) ←
             appendCause exceptions exception causeType causeMessage;
          continue k exceptions exception
      else pythonSearch nextFileLineIdx
  end.
End PythonSearch.

(** The [for] loop, walking [lines] downwards: [n] is [lineIdx + 1], so
    that [n = 0] is the exit [lineIdx < 0]. *)
Fixpoint pythonLoop (lines : list string) (n : nat)
    (exceptions : list Exception) (exception : nat) {struct n}
  : G (list Exception) :=
  match n with
  | O => mret exceptions
  | S lineIdx =>
      line ← lift (index lines (Z.of_nat lineIdx));
      if HasPrefix line fileMark then
        fr ← lift (pythonFrame line);
        pythonLoop lines lineIdx (addFrame fr exception exceptions) exception
      else if HasPrefix line duringHandling then
        pythonSearch (pythonLoop lines) lines lineIdx exceptions exception lineIdx
      else pythonLoop lines lineIdx exceptions exception
  end.

Definition fillPythonStacktrace (stacktrace : string)
    (exceptions : list Exception) : G (list Exception) :=
  let lines := Split stacktrace (String lf EmptyString) in
  let lineIdx := Z.of_nat (length lines) - 2 in
  if lineIdx <? 0 then mret exceptions
  else
    match exceptions with
    | [] => lift (Panic IndexOutOfRange)
    | _ =>
        pythonLoop lines (Z.to_nat (lineIdx + 1))
          (alter (λ e, withStack e []) 0%nat exceptions) 0%nat
    end.

(** ** Convention C: [fillJavaScriptStacktrace] *)

(** [indexOf(str, c, pos)] *)
Definition indexOf (str : string) (c : ascii) (pos : Z) : Res Z :=
  if pos <? 0 then mret (-1)
  else
    rest ← sliceFrom str (pos + 1);
    let index := IndexByte rest c in
    if -1 <? index then mret (index + pos + 1) else mret (-1).

(** The body of the [HasPrefix(line, "    at ")] branch. *)
Definition javaScriptFrame (line : string) : Res (option StackFrame) :=
  let parenIdx := IndexByte line "(" in
  ok ← closesParen line parenIdx;
  '(label, path) ←
    (if ok : bool then
       label ← slice line 7 parenIdx;
       path ← slice line (parenIdx + 1) (len line - 1);
       mret (label, path)
     else if parenIdx <? 0 then
       path ← sliceFrom line 7;
       mret (EmptyString, path)
     else mret (EmptyString, EmptyString));
  let colonFirstIdx := IndexByte path ":" in
  colonSecondIdx ← indexOf path ":" colonFirstIdx;
  '(path, lineIdx) ←
    (if (0 <=? colonFirstIdx) && (0 <=? colonSecondIdx)
        && negb (colonFirstIdx =? colonSecondIdx) then
       lineStr ← slice path (colonFirstIdx + 1) colonSecondIdx;
       path ← slice path 0 colonFirstIdx;
       mret (path, (Atoi lineStr).1)
     else if (colonFirstIdx <? 0) && Contains path "native" then
       mret ("native", 0)
     else mret (path, 0));
  if negb (String.eqb path EmptyString) || negb (String.eqb label EmptyString)
     || negb (lineIdx =? 0)
  then mret (Some (mkStackFrame path label lineIdx))
  else mret None.

Fixpoint javaScriptLoop (line : string) (r : list string)
    (exceptions : list Exception) {struct r} : Res (list Exception) :=
  exceptions ←
    (if HasPrefix line "    at " then
       fr ← javaScriptFrame line; mret (addFrame fr 0%nat exceptions)
     else mret exceptions);
  match r with
  | [] => mret exceptions
  | line :: r => javaScriptLoop line r exceptions
  end.

Definition fillJavaScriptStacktrace (stacktrace : string)
    (exceptions : list Exception) : Res (list Exception) :=
  let r := NewReader stacktrace in
  let '(_, r, _) := ReadLine r in
  match exceptions with
  | [] => Panic IndexOutOfRange
  | _ =>
      let '(line, r, ok) := ReadLine r in
      if ok : bool then
        javaScriptLoop line r (alter (λ e, withStack e []) 0%nat exceptions)
      else mret exceptions
  end.

(** ** Convention D: [fillDotnetStacktrace] *)

(** The body of the [HasPrefix(line, "\tat ")] branch. *)
Definition dotnetFrame (line : string) : Res (option StackFrame) :=
  let index_ := Index line " in " in
  if 0 <=? index_ then
    let parts := Split line " in " in
    part0 ← index parts 0;
    label ← sliceFrom part0 (len tabAt);
    path ← index parts 1;
    let colonIdx := LastIndexByte path ":" in
    if 0 <=? colonIdx then
      lineStr ← sliceFrom path (colonIdx + 1);
      lineStr ← (if HasPrefix lineStr "line" then sliceFrom lineStr 5
                 else mret lineStr);
      path ← slice path 0 colonIdx;
      mret (Some (mkStackFrame path label (Atoi lineStr).1))
    else mret (Some (mkStackFrame path label 0))
  else
    let idx := LastIndexByte line ")" in
    if 0 <=? idx then
      label ← slice line (len tabAt) (idx + 1);
      mret (Some (mkStackFrame EmptyString label 0))
    else mret None.

Fixpoint dotnetLoop (line : string) (r : list string)
    (exceptions : list Exception) {struct r} : Res (list Exception) :=
  exceptions ←
    (if HasPrefix line tabAt then
       fr ← dotnetFrame line; mret (addFrame fr 0%nat exceptions)
     else mret exceptions);
  match r with
  | [] => mret exceptions
  | line :: r => dotnetLoop line r exceptions
  end.

Definition fillDotnetStacktrace (stacktrace : string)
    (exceptions : list Exception) : Res (list Exception) :=
  let r := NewReader stacktrace in
  let '(_, r, _) := ReadLine r in
  match exceptions with
  | [] => Panic IndexOutOfRange
  | _ =>
      let '(line, r, ok) := ReadLine r in
      if ok : bool then
        dotnetLoop line r (alter (λ e, withStack e []) 0%nat exceptions)
      else mret exceptions
  end.

(** ** Convention E: [fillGoStacktrace] *)

(** *** The two regular expressions

    Go's [regexp] matches leftmost-first; the two patterns are matched by
    the scans below, byte by byte (a byte of a multi-byte rune is neither a
    colon, white space, a digit nor a word character, so byte and rune
    matching give the same slices). *)

(** [\s] is [[\t\n\f\r ]]. *)
Definition isSpace (c : ascii) : bool :=
  Ascii.eqb c tab || Ascii.eqb c lf || Ascii.eqb c ff || Ascii.eqb c cr
  || Ascii.eqb c " ".

(** [\w] is [[0-9A-Za-z_]]. *)
Definition isWord (c : ascii) : bool :=
  let n := nat_of_ascii c in
  ((48 <=? n) && (n <=? 57) || (65 <=? n) && (n <=? 90)
   || (97 <=? n) && (n <=? 122) || (n =? 95))%nat.

Fixpoint takeDigits (s : string) : string :=
  match s with
  | String c s' => if isDigit c then String c (takeDigits s') else EmptyString
  | EmptyString => EmptyString
  end.

Definition startsWithDigit (s : string) : bool :=
  match s with
  | String c _ => isDigit c
  | EmptyString => false
  end.

(** [plnre.FindStringSubmatch(line)] for [plnre = ([^:\s]+)\:(\d+)]: the two
    groups of the leftmost match, when there is one.  A match is a longest
    run of bytes other than colon and white space, a colon, and the
    longest run of digits after it; the leftmost one ends at the first
    colon that has such a byte before it and a digit after it.  [run] is
    the run of such bytes just read, last byte first. *)
Fixpoint plnScan (run : list ascii) (s : string) : option (string * string) :=
  match s with
  | EmptyString => None
  | String c s' =>
      if Ascii.eqb c ":" then
        match run with
        | _ :: _ =>
            if startsWithDigit s'
            then Some (string_of_list_ascii (rev run), takeDigits s')
            else plnScan [] s'
        | [] => plnScan [] s'
        end
      else if isSpace c then plnScan [] s'
      else plnScan (c :: run) s'
  end.

Definition plnreFindStringSubmatch (line : string) : option (string * string) :=
  plnScan [] line.

(** Some ["running"] lies in [s] between two word boundaries, with at
    least one byte after it; [prev] is the byte before [s]. *)
Fixpoint runningWord (prev : ascii) (s : string) : bool :=
  match s with
  | EmptyString => false
  | String c s' =>
      (negb (isWord prev) && String.prefix "running" s
       && match String.get 7 s with
          | Some d => negb (isWord d)
          | None => false
          end)
      || runningWord c s'
  end.

(** [re.Match([]byte(line))] for [re = ^goroutine.*\brunning\b.*:$]; a line
    of the reader holds no line feed, so [.] matches each of its bytes. *)
Definition reMatch (line : string) : bool :=
  String.prefix "goroutine" line
  && match String.get (String.length line - 1) line with
     | Some c => Ascii.eqb c ":"
     | None => false
     end
  && runningWord "e" (String.substring 9 (String.length line - 9) line).

(** [path] and [lineNumber] after the scan of the line that follows a label:
    they change only when the pattern matches. *)
Definition goPathLine (line : string) (path : string) (lineNumber : Z)
  : string * Z :=
  match plnreFindStringSubmatch line with
  | Some (p, digits) => (p, (Atoi digits).1)
  | None => (path, lineNumber)
  end.

(** The [for] loop.  The errors of the first two [ReadLine] of a turn are
    dropped: on exhausted input they return the empty line. *)
Fixpoint goLoop (line : string) (r : list string) (path : string)
    (lineNumber : Z) (exceptions : list Exception) {struct r}
  : list Exception :=
  let turn (label : string) (r : list string) : list Exception :=
    match r with
    | [] =>
        let '(path, lineNumber) := goPathLine EmptyString path lineNumber in
        addFrame (Some (mkStackFrame path label lineNumber)) 0%nat exceptions
    | line :: r =>
        let '(path, lineNumber) := goPathLine line path lineNumber in
        let exceptions :=
          addFrame (Some (mkStackFrame path label lineNumber)) 0%nat exceptions in
        match r with
        | [] => exceptions
        | line :: r => goLoop line r path lineNumber exceptions
        end
    end in
  if reMatch line then
    match r with
    | [] => turn EmptyString []
    | line :: r => turn line r
    end
  else turn line r.

Definition fillGoStacktrace (stacktrace : string)
    (exceptions : list Exception) : Res (list Exception) :=
  let r := NewReader stacktrace in
  let '(_, r, _) := ReadLine r in
  match exceptions with
  | [] => Panic IndexOutOfRange
  | _ =>
      let '(line, r, ok) := ReadLine r in
      if ok : bool then
        mret (goLoop line r EmptyString 0
                (alter (λ e, withStack e []) 0%nat exceptions))
      else mret exceptions
  end.

(** ** [parseException] *)

Definition parseException (exceptionType message stacktrace language : string)
  : G (list Exception) :=
  id ← newSegmentIDHex;
  let exceptions := [mkException id exceptionType message [] None] in
  if String.eqb stacktrace EmptyString then mret exceptions
  else if String.eqb language "java" then fillJavaStacktrace stacktrace exceptions
  else if String.eqb language "python" then fillPythonStacktrace stacktrace exceptions
  else if String.eqb language "javascript" then
    lift (fillJavaScriptStacktrace stacktrace exceptions)
  else if String.eqb language "dotnet" then
    lift (fillDotnetStacktrace stacktrace exceptions)
  else if String.eqb language "php" then fillJavaStacktrace stacktrace exceptions
  else if String.eqb language "go" then
    lift (fillGoStacktrace stacktrace exceptions)
  else mret exceptions.

(** ** [makeCause] *)

Record CauseResult := mkCauseResult {
  isError : bool;
  isFault : bool;
  isThrottle : bool;
  filtered : loc;
  cause : option CauseData
}.

Definition isExceptionEvent (event : SpanEvent) : bool :=
  String.eqb (Event_Name event) ExceptionEventName.

(** [if val, ok := m.Get(key); ok { s = val.StringVal() }] on [s := ""] *)
Definition stringAttr (m : AttributeMap) (key : string) : string :=
  match Get m key with
  | Some val => StringVal val
  | None => EmptyString
  end.

(** The second loop over the events: every exception event is parsed and
    its records are appended. *)
Fixpoint parseEvents (events : list SpanEvent) (language : string)
    (exceptions : list Exception) : G (list Exception) :=
  match events with
  | [] => mret exceptions
  | event :: events =>
      if isExceptionEvent event then
        let exceptionType :=
          stringAttr (Event_Attributes event) AttributeExceptionType in
        let message :=
          stringAttr (Event_Attributes event) AttributeExceptionMessage in
        let stacktrace :=
          stringAttr (Event_Attributes event) AttributeExceptionStacktrace in
        parsed ← parseException exceptionType message stacktrace language;
        parseEvents events language (exceptions ++ parsed)
      else parseEvents events language exceptions
  end.

Definition statusText : string := "http.status_text".

(** One turn of [for key, value := range attributes]. *)
Definition filterStep (acc : string * gmap string AttributeValue)
    (kv : string * AttributeValue) : string * gmap string AttributeValue :=
  let '(message, filtered) := acc in
  let '(key, value) := kv in
  if String.eqb key statusText then
    (if String.eqb message EmptyString then StringVal value else message,
     filtered)
  else (message, <[key := value]> filtered).

(** The loop over the entries [kvs] of the map, in the order the run time
    presents them. *)
Definition filterAttributes (message : string)
    (kvs : list (string * AttributeValue))
  : string * gmap string AttributeValue :=
  foldl filterStep (message, ∅) kvs.

(** The flags, from the HTTP status code of the span. *)
Definition statusFlags (span : Span) : bool * bool * bool :=
  match Get (Span_Attributes span) AttributeHTTPStatusCode with
  | Some val =>
      let code := IntVal val in
      if (400 <=? code) && (code <=? 499)
      then (true, false, code =? 429)
      else (false, true, false)
  | None => (false, true, false)
  end.

Definition hasExceptions (span : Span) : bool :=
  existsb isExceptionEvent (Span_Events span).

Definition language (resource : Resource) : string :=
  stringAttr (Resource_Attributes resource) AttributeTelemetrySDKLanguage.

(** [attributes] is the reference to the caller's map.  The map the
    fallback branch makes is reachable by no one else while it is filled,
    so it is allocated with its final contents. *)
Definition makeCause (span : Span) (attributes : loc) (resource : Resource)
  : M CauseResult :=
  let status := Span_Status span in
  if decide (Status_Code status ≠ StatusCodeError) then
    mret (mkCauseResult false false false attributes None)
  else
    '(filtered, cause) ←
      (if hasExceptions span then
         exceptions ← liftG (parseEvents (Span_Events span) (language resource) []);
         mret (attributes, Some (mkCauseData CauseTypeObject exceptions))
       else
         kvs ← rangeMap attributes;
         let '(message, kept) :=
           filterAttributes (Status_Message status) kvs in
         filtered ← newMap kept;
         if negb (String.eqb message EmptyString) then
           hexID ← liftG newSegmentIDHex;
           mret (filtered,
                 Some (mkCauseData CauseTypeObject
                         [mkException hexID EmptyString message [] None]))
         else mret (filtered, None));
    let '(isError, isFault, isThrottle) := statusFlags span in
    mret (mkCauseResult isError isFault isThrottle filtered cause).

(** * The vocabulary of the properties *)

(** ** The random source, step by step *)

Definition nextGen (g : IdGen) : IdGen := mkIdGen (idSource g) (S (idCount g)).
Definition nextID (g : IdGen) : string := idSource g (idCount g).

(** The list [appendCause] makes, given the identifier drawn. *)
Definition linkCause (exceptions : list Exception) (exception : nat)
    (causeType causeMessage id : string) : list Exception :=
  let exceptions := exceptions ++ [mkException id causeType causeMessage [] None] in
  alter (λ e, withCause e id) exception
    (alter (λ e, withCause e id) (length exceptions - 2)%nat exceptions).

(** ** The fallback *)

(** The message the fallback ends up with: the status message, else the
    string of the [http.status_text] entry of the attribute map. *)
Definition fallbackMessage (status : SpanStatus)
    (m : gmap string AttributeValue) : string :=
  if String.eqb (Status_Message status) EmptyString
  then match m !! statusText with
       | Some value => StringVal value
       | None => EmptyString
       end
  else Status_Message status.

(** The reading of the specification under which the [http.status_text]
    entry leaves the map exactly when its value is folded into the
    message, that is when the status message is empty. *)
Definition removedExactlyWhenFolded (span : Span) (attributes : loc)
    (resource : Resource) (w : World) : Prop :=
  ∀ r w', makeCause span attributes resource w = Ok (r, w') →
    is_Some (mapAt w attributes !! statusText) →
    ((mapAt w' (filtered r) !! statusText = None)
     ↔ Status_Message (Span_Status span) = EmptyString).

(** ** Java traces *)

(** Two records that differ in their stack at most. *)
Definition sameButStack (a b : Exception) : Prop :=
  ID a = ID b ∧ Type_ a = Type_ b ∧ Message a = Message b ∧ Cause a = Cause b.

(** A line that does not start a nested cause. *)
Definition noCause (line : string) : Prop := HasPrefix line causedBy = false.

(** ** The pairs of a Go trace *)

Module GoPairs.

(** What the specification says of convention E: the lines after the first
    go in pairs of a label line and a next line; each pair gives one frame,
    whose path and line number are those the pattern finds in the next
    line or, when it finds none, those of the frame before (the empty path
    and zero at the start). *)
Fixpoint pairFrames (path : string) (lineNumber : Z)
    (pairs : list (string * string)) : list StackFrame :=
  match pairs with
  | [] => []
  | (label, next) :: pairs =>
      match plnreFindStringSubmatch next with
      | Some (p, digits) =>
          mkStackFrame p label (Atoi digits).1
          :: pairFrames p (Atoi digits).1 pairs
      | None =>
          mkStackFrame path label lineNumber :: pairFrames path lineNumber pairs
      end
  end.

(** A pair with the ["goroutine ... running ...:"] line in front of it, when
    there is one. *)
Definition group : Type := option string * (string * string).

Definition groupLines (g : group) : list string :=
  match g.1 with
  | Some header => [header; g.2.1; g.2.2]
  | None => [g.2.1; g.2.2]
  end.

(** The line the loop tests against the header pattern is a header exactly
    when the group has one. *)
Definition wellFormed (g : group) : Prop :=
  match g.1 with
  | Some header => reMatch header = true
  | None => reMatch g.2.1 = false
  end.

End GoPairs.
Import GoPairs.

(** ** Two runs

    The parsers never look at an identifier: run from two states of the
    random source they do the same, and the records they make differ in
    the values drawn only. *)

(** Two results that are both panics, the same one, or both values,
    related. *)
Definition bothRes {A B} (R : A → B → Prop) (r1 : Res A) (r2 : Res B) : Prop :=
  match r1, r2 with
  | Ok a1, Ok a2 => R a1 a2
  | Panic e1, Panic e2 => e1 = e2
  | _, _ => False
  end.

Section TwoRuns.
(** The random source at the start of the first and of the second run. *)
Variables g1 g2 : IdGen.

(** The same draw of the two runs. *)
Definition sameDraw (x1 x2 : string) : Prop :=
  ∃ k : nat, x1 = idSource g1 (idCount g1 + k)%nat
           ∧ x2 = idSource g2 (idCount g2 + k)%nat.

(** Two records equal in type, message and frames, whose identifiers are
    the same draw, and whose causes are both nil or the same draw. *)
Definition similar (e1 e2 : Exception) : Prop :=
  Type_ e1 = Type_ e2 ∧ Message e1 = Message e2 ∧ Stack e1 = Stack e2
  ∧ sameDraw (ID e1) (ID e2)
  ∧ option_Forall2 sameDraw (Cause e1) (Cause e2).

(** The two runs have drawn equally often. *)
Definition aligned (h1 h2 : IdGen) : Prop :=
  idSource h1 = idSource g1 ∧ idSource h2 = idSource g2
  ∧ ∃ d : nat, idCount h1 = (idCount g1 + d)%nat
             ∧ idCount h2 = (idCount g2 + d)%nat.

(** Two runs of a parser that end alike: the same panic, or related values
    after equally many draws. *)
Definition bothG {A} (R : A → A → Prop)
    (r1 r2 : Res (A * IdGen)) : Prop :=
  bothRes (λ p1 p2, R p1.1 p2.1 ∧ aligned p1.2 p2.2) r1 r2.

(** Two causes that are both nil, or hold records that differ in the
    values of the identifiers drawn only. *)
Definition sameCause (c1 c2 : option CauseData) : Prop :=
  option_Forall2
    (λ d1 d2, CauseData_Type d1 = CauseData_Type d2
              ∧ Forall2 similar (Exceptions d1) (Exceptions d2))
    c1 c2.

(** Two results with the same flags, the same contents of the attribute
    map handed back, and the same cause up to the identifiers. *)
Definition sameResult (p1 p2 : CauseResult * World) : Prop :=
  isError p1.1 = isError p2.1 ∧ isFault p1.1 = isFault p2.1
  ∧ isThrottle p1.1 = isThrottle p2.1
  ∧ mapAt p1.2 (filtered p1.1) = mapAt p2.2 (filtered p2.1)
  ∧ sameCause (cause p1.1) (cause p2.1).

End TwoRuns.

(** ** Sample inputs *)

Module Sample.

Definition nl : string := String lf EmptyString.

(** A random source that hands out "0", "1", "2", ... *)
Definition ids : nat -> string := fun k => String (ascii_of_nat (48 + k)) EmptyString.
Definition g0 : IdGen := mkIdGen ids 0.

Definition attrs404 : AttributeMap :=
  [("http.method", AttributeValueString "GET");
   (AttributeHTTPStatusCode, AttributeValueInt 404)].

Definition okSpan : Span :=
  mkSpan (mkSpanStatus StatusCodeOk "fine")
         [mkSpanEvent ExceptionEventName
            [(AttributeExceptionStacktrace, AttributeValueString "Caused by: X:")]]
         attrs404.

Definition boomSpan : Span :=
  mkSpan (mkSpanStatus StatusCodeError "boom") [] attrs404.

Definition quietSpan : Span :=
  mkSpan (mkSpanStatus StatusCodeError EmptyString)
         [mkSpanEvent "message" []] [].

Definition noResource : Resource := mkResource [].
Definition resourceOf (lang : string) : Resource :=
  mkResource [(AttributeTelemetrySDKLanguage, AttributeValueString lang)].

(** The caller's map, at location 0. *)
Definition callerMap : gmap string AttributeValue :=
  {[ statusText := AttributeValueString "Not Found";
     "http.method" := AttributeValueString "GET" ]}.
Definition w0 : World := mkWorld g0 {[ 0%nat := callerMap ]} map_to_list.

(** Another random source, another heap with the caller's map, and the
    entries of a map met in the opposite order. *)
Definition ids' : nat -> string := fun k => String (ascii_of_nat (97 + k)) "f".
Definition w1 : World :=
  mkWorld (mkIdGen ids' 7) {[ 0%nat := callerMap; 3%nat := ∅ ]}
          (λ m, reverse (map_to_list m)).

(** The Java trace of the specification. *)
Definition javaTrace : string :=
  "E" +:+ nl +:+ tabAt +:+ "a.b.c(File.java:10)" +:+ nl
  +:+ "Caused by: X: y" +:+ nl +:+ tabAt +:+ "a.b.c(File.java:20)" +:+ nl.

Definition exceptionEvent (stacktrace : string) : SpanEvent :=
  mkSpanEvent ExceptionEventName
    [(AttributeExceptionType, AttributeValueString "T");
     (AttributeExceptionMessage, AttributeValueString "m");
     (AttributeExceptionStacktrace, AttributeValueString stacktrace)].

Definition javaSpan : Span :=
  mkSpan (mkSpanStatus StatusCodeError "boom") [exceptionEvent javaTrace] attrs404.

(** A span with one exception event and no HTTP status code. *)
Definition failedSpan (stacktrace : string) : Span :=
  mkSpan (mkSpanStatus StatusCodeError "boom") [exceptionEvent stacktrace] [].

(** Malformed traces: a Java cause line that ends at the colon, a Python
    file line without the quoted path, a .NET frame whose line number
    stops after [line]. *)
Definition javaCut : string := "E" +:+ nl +:+ "Caused by: X:".
Definition pythonCut : string := "  File ,a,b" +:+ nl +:+ "E".
Definition dotnetCut : string := "E" +:+ nl +:+ tabAt +:+ "f() in a.cs:line".

(** A Go trace with a header line and two pairs, the second without a
    path. *)
Definition goTrace : string :=
  "E" +:+ nl +:+ "goroutine 1 [running]:" +:+ nl
  +:+ "main.f(...)" +:+ nl
  +:+ String tab "/path/file.go:12 +0x1d" +:+ nl
  +:+ "main.main()" +:+ nl +:+ String tab "nowhere" +:+ nl.

Definition goGroups : list group :=
  [(Some "goroutine 1 [running]:", ("main.f(...)", String tab "/path/file.go:12 +0x1d"));
   (None, ("main.main()", String tab "nowhere"))].

Definition e0 : Exception := mkException "0" "T" "m" [] None.

End Sample.

(** ** More vocabulary *)

(** The frame a line of a Java trace contributes, when it does. *)
Definition javaLineFrame (line : string) : option StackFrame :=
  if HasPrefix line tabAt
  then match javaFrame line with
       | Ok fr => fr
       | Panic _ => None
       end
  else None.

(** The records of one stack trace, in the order they were made: the
    [i]-th holds the [i]-th identifier drawn from [g], and names the next
    record as its cause unless it is the last one. *)
Definition chained (g : IdGen) (exceptions : list Exception) : Prop :=
  ∀ (i : nat) e, exceptions !! i = Some e →
    ID e = idSource g (idCount g + i)%nat
    ∧ Cause e = if decide (S i < length exceptions)%nat
                then Some (idSource g (idCount g + S i)%nat)
                else None.

(** The records of a cause: the [i]-th holds the [i]-th identifier drawn
    from [g], and its cause is nil or the record after it. *)
Definition linked (g : IdGen) (exceptions : list Exception) : Prop :=
  ∀ (i : nat) e, exceptions !! i = Some e →
    ID e = idSource g (idCount g + i)%nat
    ∧ (Cause e = None
       ∨ ((S i < length exceptions)%nat
          ∧ Cause e = Some (idSource g (idCount g + S i)%nat))).

(** [g'] is [g] after [n] more draws. *)
Definition drawn (g : IdGen) (n : nat) (g' : IdGen) : Prop :=
  idSource g' = idSource g ∧ idCount g' = (idCount g + n)%nat.

(** A cause line of a Java trace whose type and message can be cut out. *)
Definition safeCause (line : string) : Prop :=
  HasPrefix line causedBy = true → returns (javaCauseHead line) = true.

(** The records of [l] are still in [l'], at their places, with their
    types and messages. *)
Definition keeps (l l' : list Exception) : Prop :=
  ∀ (i : nat) e, l !! i = Some e →
    ∃ e', l' !! i = Some e' ∧ Type_ e' = Type_ e ∧ Message e' = Message e.

(** The number of exception events of a span. *)
Definition exceptionEvents (span : Span) : nat :=
  length (filter (λ event, isExceptionEvent event = true) (Span_Events span)).

(** What holds of a list the parsers work on: it is not empty, its records
    are chained, and the random source has been drawn from once for each
    record. *)
Definition wellChained (g : IdGen) (l : list Exception) (g' : IdGen) : Prop :=
  l ≠ [] ∧ chained g l ∧ drawn g (length l) g'.


(** What holds of a run when it returns. *)
Definition whenReturns {A S} (m : Res (A * S)) (Q : A → S → Prop) : Prop :=
  match m with
  | Ok (a, s) => Q a s
  | Panic _ => True
  end.

(** The frame a line of a Python trace contributes, when it does. *)
Definition pythonLineFrame (line : string) : option StackFrame :=
  if HasPrefix line fileMark
  then match pythonFrame line with
       | Ok fr => fr
       | Panic _ => None
       end
  else None.

(** A line of a Python trace that starts no nested cause and whose frame,
    if it is a file line, can be cut out. *)
Definition pythonPlain (line : string) : Prop :=
  HasPrefix line duringHandling = false
  ∧ (HasPrefix line fileMark = true → returns (pythonFrame line) = true).

(** The lines the Python parser walks: all but the last. *)
Definition walked (lines : list string) : list string :=
  take (length lines - 1) lines.

(** The frame a line of a .NET trace contributes, when it does. *)
Definition dotnetLineFrame (line : string) : option StackFrame :=
  if HasPrefix line tabAt
  then match dotnetFrame line with
       | Ok fr => fr
       | Panic _ => None
       end
  else None.

(** A line of a .NET trace whose file part, if it is a frame line with
    one, can be cut out. *)
Definition dotnetSafe (line : string) : Prop :=
  HasPrefix line tabAt = true → 0 <= Index line " in " →
  returns (dotnetFrame line) = true.

(** The span with its exception events only. *)
Definition exceptionEventsOnly (span : Span) : Span :=
  mkSpan (Span_Status span)
         (filter (λ event, isExceptionEvent event = true) (Span_Events span))
         (Span_Attributes span).

(** The frame a line of a JavaScript trace contributes, when it does. *)
Definition javaScriptLineFrame (line : string) : option StackFrame :=
  if HasPrefix line "    at "
  then match javaScriptFrame line with
       | Ok fr => fr
       | Panic _ => None
       end
  else None.

(** A frame with a field that is not the default. *)
Definition nonDefault (f : StackFrame) : Prop :=
  Path f ≠ EmptyString ∨ Label f ≠ EmptyString ∨ Line f ≠ 0.

(** The parse of an event, if it is an exception event, returns. *)
Definition eventParses (language : string) (g : IdGen) (event : SpanEvent)
  : Prop :=
  isExceptionEvent event = true →
  returns (parseException
             (stringAttr (Event_Attributes event) AttributeExceptionType)
             (stringAttr (Event_Attributes event) AttributeExceptionMessage)
             (stringAttr (Event_Attributes event) AttributeExceptionStacktrace)
             language g) = true.

(** * Properties *)

(** ** The flags *)

Lemma statusFlags_cases span :
  statusFlags span = (true, false, false)
  ∨ statusFlags span = (true, false, true)
  ∨ statusFlags span = (false, true, false).
Proof.
  unfold statusFlags.
  destruct (Get _ _) as [val|]; [|auto].
  destruct (_ && _); [|auto].
  destruct (IntVal val =? 429); auto.
Qed.

(** What [makeCause] returns on a span with the error status, in terms of
    its two branches. *)
Lemma makeCause_error span attributes resource w :
  Status_Code (Span_Status span) = StatusCodeError →
  makeCause span attributes resource w =
    (p ← (if hasExceptions span then
            exceptions ← liftG (parseEvents (Span_Events span) (language resource) []);
            mret (attributes, Some (mkCauseData CauseTypeObject exceptions))
          else
            kvs ← rangeMap attributes;
            let '(message, kept) :=
              filterAttributes (Status_Message (Span_Status span)) kvs in
            filtered ← newMap kept;
            if negb (String.eqb message EmptyString) then
              hexID ← liftG newSegmentIDHex;
              mret (filtered,
                    Some (mkCauseData CauseTypeObject
                            [mkException hexID EmptyString message [] None]))
            else mret (filtered, None));
     let '(isError, isFault, isThrottle) := statusFlags span in
     mret (mkCauseResult isError isFault isThrottle p.1 p.2) : M CauseResult) w.
Proof.
  intros Hcode. unfold makeCause. rewrite Hcode.
  destruct (decide _) as [Hne|_]; [by destruct Hne|].
  unfold mbind, M_bind. destruct (_ w) as [[[f c] w']|e]; reflexivity.
Qed.

Lemma makeCause_flags_of span attributes resource w r w' :
  Status_Code (Span_Status span) = StatusCodeError →
  makeCause span attributes resource w = Ok (r, w') →
  (isError r, isFault r, isThrottle r) = statusFlags span.
Proof.
  intros Hcode. rewrite makeCause_error by done.
  unfold mbind, M_bind. destruct (_ w) as [[p w1]|e]; [|done].
  destruct (statusFlags span) as [[e f] t]. unfold mret, M_ret.
  by intros [= <- <-].
Qed.

Lemma makeCause_early_return span attributes resource w :
  Status_Code (Span_Status span) ≠ StatusCodeError →
  makeCause span attributes resource w
  = Ok (mkCauseResult false false false attributes None, w).
Proof.
  intros Hcode. unfold makeCause. by destruct (decide _).
Qed.

(** C2.  On a span whose status code is not the error status [makeCause]
    returns three false flags, the very reference to the attribute map it
    was given and no cause, in the world it started in: nothing is drawn
    from the random source and no map is made or changed, whatever the
    events and the attributes are. *)
Theorem makeCause_not_error span attributes resource w :
  Status_Code (Span_Status span) ≠ StatusCodeError →
  makeCause span attributes resource w
  = Ok (mkCauseResult false false false attributes None, w).
Proof.
  intros Hcode. unfold makeCause.
  destruct (decide _) as [_|Heq]; [reflexivity | by destruct Heq].
Qed.

Lemma makeCause_not_error_witness :
  makeCause Sample.okSpan 0%nat (Sample.resourceOf "java") Sample.w0
  = Ok (mkCauseResult false false false 0%nat None, Sample.w0).
Proof. apply makeCause_not_error. simpl. discriminate. Defined.

(** C3.  On a span with the error status, whatever [makeCause] returns
    carries the flags of the HTTP status code: fault alone when the
    attribute is absent; error, and throttle exactly for 429, when its
    value is within 400..499; fault alone for any other value.  It returns
    whenever the span has no exception event, and otherwise unless the
    parse of the events panics. *)
Theorem makeCause_flags span attributes resource w :
  Status_Code (Span_Status span) = StatusCodeError →
  (∀ r w', makeCause span attributes resource w = Ok (r, w') →
     match Get (Span_Attributes span) AttributeHTTPStatusCode with
     | None => isError r = false ∧ isFault r = true ∧ isThrottle r = false
     | Some val =>
         if decide (400 <= IntVal val <= 499)
         then isError r = true ∧ isFault r = false
              ∧ (isThrottle r = true ↔ IntVal val = 429)
         else isError r = false ∧ isFault r = true ∧ isThrottle r = false
     end)
  ∧ (hasExceptions span = false →
     returns (makeCause span attributes resource w) = true)
  ∧ (∀ e, makeCause span attributes resource w = Panic e →
     hasExceptions span = true
     ∧ parseEvents (Span_Events span) (language resource) [] (gen w) = Panic e).
Proof.
  intros Hcode. split; [|split].
  - intros r w' Hrun.
    pose proof (makeCause_flags_of _ _ _ _ _ _ Hcode Hrun) as Hfl.
    unfold statusFlags in Hfl.
    destruct (Get _ _) as [val|]; [|by injection Hfl].
    destruct (decide _) as [Hin|Hout].
    + replace ((400 <=? IntVal val) && (IntVal val <=? 499)) with true in Hfl
        by (symmetry; apply andb_true_iff; lia).
      injection Hfl as -> -> ->. repeat split; [apply Z.eqb_eq | apply Z.eqb_eq].
    + replace ((400 <=? IntVal val) && (IntVal val <=? 499)) with false in Hfl
        by (symmetry; apply andb_false_iff; lia).
      by injection Hfl.
  - intros Hno. rewrite makeCause_error by done. rewrite Hno.
    unfold mbind, M_bind, rangeMap, newMap, liftG, newSegmentIDHex, mret, M_ret.
    destruct (filterAttributes _ _) as [message kept].
    destruct (negb _); simpl; by destruct (statusFlags span) as [[? ?] ?].
  - intros e. rewrite makeCause_error by done.
    destruct (hasExceptions span).
    + unfold mbind, M_bind, liftG, mret, M_ret.
      destruct (parseEvents _ _ _ _) as [[excs g']|e']; simpl.
      * by destruct (statusFlags span) as [[? ?] ?].
      * by intros [= ->].
    + unfold mbind, M_bind, rangeMap, newMap, liftG, newSegmentIDHex, mret, M_ret.
      destruct (filterAttributes _ _) as [message kept].
      destruct (negb _); simpl; by destruct (statusFlags span) as [[? ?] ?].
Qed.

Lemma makeCause_flags_witness :
  ∃ r w', makeCause Sample.boomSpan 0%nat Sample.noResource Sample.w0 = Ok (r, w')
          ∧ isError r = true ∧ isFault r = false ∧ isThrottle r = false.
Proof.
  destruct (makeCause Sample.boomSpan 0%nat Sample.noResource Sample.w0)
    as [[r w']|e] eqn:Hrun.
  - exists r, w'. split; [reflexivity|].
    destruct (makeCause_flags Sample.boomSpan 0%nat Sample.noResource Sample.w0
                eq_refl) as [Hfl _].
    specialize (Hfl r w' Hrun). simpl in Hfl.
    destruct Hfl as (He & Hf & Ht). repeat split; [done..|].
    destruct (isThrottle r); [|done].
    by destruct Ht as [Ht _]; specialize (Ht eq_refl).
  - destruct (makeCause_flags Sample.boomSpan 0%nat Sample.noResource Sample.w0
                eq_refl) as (_ & _ & Hp).
    destruct (Hp e Hrun) as [Hex _]. discriminate Hex.
Defined.

(** C10.  On every return of [makeCause] the error and the fault flag are
    not both set and the throttle flag comes with the error flag only; on a
    span with the error status exactly one of error and fault is set. *)
Theorem makeCause_flags_invariant span attributes resource w r w' :
  makeCause span attributes resource w = Ok (r, w') →
  ¬ (isError r = true ∧ isFault r = true)
  ∧ (isThrottle r = true → isError r = true)
  ∧ (Status_Code (Span_Status span) = StatusCodeError →
     xorb (isError r) (isFault r) = true).
Proof.
  intros Hrun.
  destruct (decide (Status_Code (Span_Status span) = StatusCodeError)) as [Hc|Hc].
  - pose proof (makeCause_flags_of _ _ _ _ _ _ Hc Hrun) as Hfl.
    destruct (statusFlags_cases span) as [H|[H|H]]; rewrite H in Hfl;
      injection Hfl as -> -> ->; (split; [by intros [? ?]|split; done]).
  - rewrite makeCause_early_return in Hrun by done.
    injection Hrun as <- <-. simpl. split; [by intros [? ?]|split; done].
Qed.

Lemma makeCause_flags_invariant_witness :
  ∃ r w', makeCause Sample.javaSpan 0%nat (Sample.resourceOf "java") Sample.w0
          = Ok (r, w')
          ∧ xorb (isError r) (isFault r) = true.
Proof.
  destruct (makeCause Sample.javaSpan 0%nat (Sample.resourceOf "java") Sample.w0)
    as [[r w']|e] eqn:Hrun; [|by vm_compute in Hrun].
  exists r, w'. split; [reflexivity|].
  by apply (makeCause_flags_invariant _ _ _ _ _ _ Hrun).
Defined.

(** ** The fallback when the span has no exception event *)

Lemma filterStep_fold_message (kvs : list (string * AttributeValue)) :
  NoDup kvs.*1 → ∀ msg acc,
  (foldl filterStep (msg, acc) kvs).1
  = if String.eqb msg EmptyString
    then match (list_to_map kvs : gmap string AttributeValue) !! statusText with
         | Some value => StringVal value
         | None => EmptyString
         end
    else msg.
Proof.
  induction kvs as [|[k v] kvs IH]; intros Hnd msg acc; simpl.
  - by destruct (String.eqb_spec msg EmptyString) as [->|].
  - apply NoDup_cons in Hnd as [Hk Hnd].
    destruct (String.eqb_spec k statusText) as [->|Hne].
    + rewrite IH by done. rewrite lookup_insert_eq.
      rewrite (not_elem_of_list_to_map_1 _ _ Hk).
      destruct (String.eqb_spec msg EmptyString) as [->|Hmsg].
      * by destruct (String.eqb_spec (StringVal v) EmptyString) as [->|].
      * by destruct (String.eqb_spec msg EmptyString).
    + rewrite IH by done. by rewrite lookup_insert_ne.
Qed.

Lemma filterStep_fold_kept (kvs : list (string * AttributeValue)) :
  NoDup kvs.*1 → ∀ msg acc,
  acc !! statusText = None →
  (foldl filterStep (msg, acc) kvs).2
  = delete statusText (list_to_map kvs ∪ acc).
Proof.
  induction kvs as [|[k v] kvs IH]; intros Hnd msg acc Hacc; simpl.
  - rewrite (left_id_L ∅ (∪)). symmetry. by apply delete_id.
  - apply NoDup_cons in Hnd as [Hk Hnd].
    pose proof (not_elem_of_list_to_map_1 (M := gmap string) _ _ Hk) as Hnone.
    destruct (String.eqb_spec k statusText) as [->|Hne].
    + rewrite IH by done. rewrite <-insert_union_l. by rewrite delete_insert_eq.
    + rewrite IH; [|done|by rewrite lookup_insert_ne].
      f_equal. rewrite <-insert_union_l. by rewrite insert_union_r.
Qed.

(** The loop over the map does not depend on the order of the entries: it
    keeps every entry but [http.status_text] and ends with
    [fallbackMessage]. *)
Lemma filterAttributes_any_order (m : gmap string AttributeValue) status kvs :
  kvs ≡ₚ map_to_list m →
  filterAttributes (Status_Message status) kvs
  = (fallbackMessage status m, delete statusText m).
Proof.
  intros Hperm.
  assert (NoDup kvs.*1) as Hnd.
  { rewrite Hperm. apply NoDup_fst_map_to_list. }
  assert (list_to_map kvs = m) as Hmap.
  { rewrite <-(list_to_map_to_list m). by apply list_to_map_proper. }
  unfold filterAttributes.
  rewrite (surjective_pairing (foldl _ _ _)).
  rewrite filterStep_fold_message, filterStep_fold_kept by done.
  rewrite Hmap. by rewrite (right_id_L ∅ (∪)).
Qed.

Lemma hasExceptions_false span :
  (∀ event, event ∈ Span_Events span → Event_Name event ≠ ExceptionEventName) →
  hasExceptions span = false.
Proof.
  unfold hasExceptions. induction (Span_Events span) as [|ev evs IH]; intros H.
  - reflexivity.
  - simpl. rewrite IH; [|intros; apply H; by right].
    unfold isExceptionEvent.
    destruct (String.eqb_spec (Event_Name ev) ExceptionEventName) as [Heq|]; [|done].
    exfalso. by apply (H ev); [left|].
Qed.

Lemma fairRange_w0 : fairRange Sample.w0.
Proof. intros m. reflexivity. Qed.

(** The fallback branch, run. *)
Lemma makeCause_fallback_run span attributes resource w :
  fairRange w →
  Status_Code (Span_Status span) = StatusCodeError →
  hasExceptions span = false →
  let message := fallbackMessage (Span_Status span) (mapAt w attributes) in
  let l := fresh (dom (heap w)) in
  let heap' := <[l := delete statusText (mapAt w attributes)]> (heap w) in
  makeCause span attributes resource w
  = let '(isError, isFault, isThrottle) := statusFlags span in
    if String.eqb message EmptyString
    then Ok (mkCauseResult isError isFault isThrottle l None,
             withHeap w heap')
    else Ok (mkCauseResult isError isFault isThrottle l
               (Some (mkCauseData CauseTypeObject
                  [mkException (idSource (gen w) (idCount (gen w)))
                     EmptyString message [] None])),
             mkWorld (nextGen (gen w)) heap' (rangeOrder w)).
Proof.
  intros Hfair Hcode Hno. simpl. rewrite makeCause_error by done. rewrite Hno.
  unfold mbind, M_bind, rangeMap.
  rewrite (filterAttributes_any_order (mapAt w attributes)) by apply Hfair.
  unfold newMap, liftG, newSegmentIDHex, mret, M_ret.
  destruct (String.eqb _ EmptyString); simpl;
    by destruct (statusFlags span) as [[? ?] ?].
Qed.

(** C5.  On a span with the error status and no exception event: when the
    fallback message (the status message, else the [http.status_text]
    attribute) is not empty, the cause holds exactly one exception, with the
    identifier just drawn from the random source, the empty type, that
    message and no stack frame; when it is empty the cause is nil.  (The
    [range] loop over the map meets each entry once, in any order.) *)
Theorem makeCause_fallback span attributes resource w :
  fairRange w →
  Status_Code (Span_Status span) = StatusCodeError →
  (∀ event, event ∈ Span_Events span → Event_Name event ≠ ExceptionEventName) →
  let message := fallbackMessage (Span_Status span) (mapAt w attributes) in
  ∃ r w', makeCause span attributes resource w = Ok (r, w')
    ∧ if decide (message = EmptyString)
      then cause r = None ∧ gen w' = gen w
      else cause r = Some (mkCauseData CauseTypeObject
                             [mkException (idSource (gen w) (idCount (gen w)))
                                EmptyString message [] None])
           ∧ idCount (gen w') = S (idCount (gen w)).
Proof.
  intros Hfair Hcode Hev message.
  rewrite makeCause_fallback_run by auto using hasExceptions_false.
  fold message. destruct (statusFlags span) as [[e f] t].
  destruct (String.eqb_spec message EmptyString) as [Hm|Hm];
    eexists _, _; (split; [reflexivity|]);
    (destruct (decide _); [|]); try done.
Qed.

Lemma makeCause_fallback_witness :
  ∃ r w', makeCause Sample.boomSpan 0%nat Sample.noResource Sample.w0 = Ok (r, w')
    ∧ cause r = Some (mkCauseData CauseTypeObject
                        [mkException "0" EmptyString "boom" [] None]).
Proof.
  destruct (makeCause_fallback Sample.boomSpan 0%nat Sample.noResource Sample.w0)
    as (r & w' & Hrun & Hcause).
  - intros m. reflexivity.
  - reflexivity.
  - simpl. intros event Hin. by apply elem_of_nil in Hin.
  - exists r, w'. split; [exact Hrun|]. simpl in Hcause.
    exact (proj1 Hcause).
Defined.

(** ** The attribute map handed back *)

(** With the status message "boom" the entry is dropped although the
    message stays "boom". *)
Lemma removedExactlyWhenFolded_fails :
  ¬ removedExactlyWhenFolded Sample.boomSpan 0%nat Sample.noResource Sample.w0.
Proof.
  intros H.
  destruct (makeCause Sample.boomSpan 0%nat Sample.noResource Sample.w0)
    as [[r w']|e] eqn:Hrun; [|by vm_compute in Hrun].
  specialize (H r w' Hrun).
  rewrite makeCause_fallback_run in Hrun by (reflexivity || apply fairRange_w0).
  injection Hrun as <- <-.
  assert (is_Some (mapAt Sample.w0 0%nat !! statusText)) as Hsome.
  { by eexists; vm_compute. }
  destruct (H Hsome) as [Hfold _].
  discriminate Hfold. unfold mapAt; simpl. rewrite lookup_insert_eq; simpl.
  apply lookup_delete_eq.
Qed.

(** C6, as the code has it.  On a span with the error status and no
    exception event the map handed back is a new one, at a location not
    allocated before, holding every entry of the caller's map but
    [http.status_text], which is left out whether or not its value went into
    the message; the maps that existed are untouched.  With an empty status
    message and a non-empty string under [http.status_text], that string is
    the message of the single exception.  (The [range] loop over the map
    meets each entry once, in any order.)  When the span has an exception
    event, the reference handed back is the one that was given, and no map
    is made. *)
Theorem makeCause_filtered span attributes resource w :
  Status_Code (Span_Status span) = StatusCodeError →
  (fairRange w →
   (∀ event, event ∈ Span_Events span → Event_Name event ≠ ExceptionEventName) →
   ∃ r w', makeCause span attributes resource w = Ok (r, w')
     ∧ (filtered r ∉ dom (heap w))
     ∧ (heap w' = <[filtered r := delete statusText (mapAt w attributes)]> (heap w))
     ∧ mapAt w' (filtered r) !! statusText = None
     ∧ (∀ key, key ≠ statusText →
          mapAt w' (filtered r) !! key = mapAt w attributes !! key)
     ∧ (∀ text, Status_Message (Span_Status span) = EmptyString →
          mapAt w attributes !! statusText = Some (AttributeValueString text) →
          text ≠ EmptyString →
          ∃ id, cause r = Some (mkCauseData CauseTypeObject
                                  [mkException id EmptyString text [] None])))
  ∧ (hasExceptions span = true →
     ∀ r w', makeCause span attributes resource w = Ok (r, w') →
       filtered r = attributes ∧ heap w' = heap w).
Proof.
  intros Hcode. split.
  - intros Hfair Hev. apply hasExceptions_false in Hev.
    rewrite makeCause_fallback_run by done.
    set (l := fresh (dom (heap w))).
    set (kept := delete statusText (mapAt w attributes)).
    assert (l ∉ dom (heap w)) as Hfresh by apply is_fresh.
    destruct (statusFlags span) as [[e f] t].
    assert (∀ g o, mapAt (mkWorld g (<[l := kept]> (heap w)) o) l = kept) as Hat.
    { intros g o. unfold mapAt; simpl. by rewrite lookup_insert_eq. }
    destruct (String.eqb_spec
                (fallbackMessage (Span_Status span) (mapAt w attributes))
                EmptyString) as [Hm|Hm];
      eexists _, _; (split; [reflexivity|]); simpl;
      (split; [exact Hfresh|]); (split; [reflexivity|]);
      unfold withHeap; rewrite Hat; (split; [apply lookup_delete_eq|]);
      (split; [intros key Hkey; by apply lookup_delete_ne|]);
      intros text Hmsg Htext Hne; unfold fallbackMessage in *;
      rewrite Hmsg, Htext in *; simpl in *.
    + done.
    + by eexists.
  - intros Hhas r w'. rewrite makeCause_error by done. rewrite Hhas.
    unfold mbind, M_bind, liftG, mret, M_ret.
    destruct (parseEvents _ _ _ _) as [[excs g']|e]; simpl; [|done].
    destruct (statusFlags span) as [[? ?] ?]. by intros [= <- <-].
Qed.

Lemma makeCause_filtered_witness :
  ∃ r w',
    makeCause Sample.quietSpan 0%nat Sample.noResource Sample.w0 = Ok (r, w')
    ∧ (filtered r ∉ dom (heap Sample.w0))
    ∧ mapAt w' (filtered r) !! statusText = None
    ∧ ∃ id, cause r = Some (mkCauseData CauseTypeObject
                              [mkException id EmptyString "Not Found" [] None]).
Proof.
  destruct (makeCause_filtered Sample.quietSpan 0%nat Sample.noResource Sample.w0
              eq_refl) as [Hfall _].
  destruct Hfall as (r & w' & Hrun & Hfresh & _ & Hnone & _ & Htext).
  - intros m. reflexivity.
  - simpl. intros event Hin. apply list_elem_of_singleton in Hin as ->.
    simpl. discriminate.
  - exists r, w'. repeat split; [exact Hrun|exact Hfresh|exact Hnone|].
    apply Htext; [reflexivity|by vm_compute|discriminate].
Defined.

(** ** Malformed stack traces *)

(** C1 fails on the code.  On the three spans below, which have the error
    status and one exception event each, [makeCause] panics with a slice
    bound out of range: in [fillJavaStacktrace] at
    [causeType[colonIdx+2:]], in [fillPythonStacktrace] at
    [filePart[8 : len(filePart)-1]], in [fillDotnetStacktrace] at
    [lineStr[5:]]. *)
Theorem makeCause_panics_on_malformed_trace :
  makeCause (Sample.failedSpan Sample.javaCut) 0%nat (Sample.resourceOf "java")
    Sample.w0 = Panic SliceBoundsOutOfRange
  ∧ makeCause (Sample.failedSpan Sample.pythonCut) 0%nat
      (Sample.resourceOf "python") Sample.w0 = Panic SliceBoundsOutOfRange
  ∧ makeCause (Sample.failedSpan Sample.dotnetCut) 0%nat
      (Sample.resourceOf "dotnet") Sample.w0 = Panic SliceBoundsOutOfRange.
Proof. repeat split; vm_compute; reflexivity. Qed.

(** ** Slices that stay in range *)

Lemma len_String c s : len (String c s) = len s + 1.
Proof. unfold len. simpl. lia. Qed.

Lemma slice_ok s lo hi :
  0 <= lo → lo <= hi → hi <= len s →
  slice s lo hi = Ok (String.substring (Z.to_nat lo) (Z.to_nat (hi - lo)) s).
Proof.
  intros H1 H2 H3. unfold slice.
  replace ((0 <=? lo) && (lo <=? hi) && (hi <=? len s)) with true; [done|].
  symmetry. rewrite !andb_true_iff. lia.
Qed.

Lemma sliceFrom_ok s lo :
  0 <= lo → lo <= len s →
  sliceFrom s lo = Ok (String.substring (Z.to_nat lo) (Z.to_nat (len s - lo)) s).
Proof. intros. unfold sliceFrom. apply slice_ok; lia. Qed.

Lemma get_Some_lt s (i : nat) : (i < String.length s)%nat → is_Some (String.get i s).
Proof.
  revert i. induction s as [|c s IH]; intros i Hi; simpl in *; [lia|].
  destruct i; [by eexists|]. apply IH. lia.
Qed.

Lemma byteAt_ok s i :
  0 <= i → i < len s →
  ∃ c, byteAt s i = Ok c ∧ String.get (Z.to_nat i) s = Some c.
Proof.
  intros H1 H2. unfold byteAt.
  replace ((0 <=? i) && (i <? len s)) with true
    by (symmetry; rewrite andb_true_iff; lia).
  destruct (get_Some_lt s (Z.to_nat i)) as [c Hc]; [unfold len in H2; lia|].
  rewrite Hc. by exists c.
Qed.

Lemma byteAt_get s i c : byteAt s i = Ok c → String.get (Z.to_nat i) s = Some c.
Proof.
  unfold byteAt. destruct (_ && _); [|done].
  destruct (String.get _ _); [|done]. by intros [= ->].
Qed.

Lemma IndexByte_range s c : -1 <= IndexByte s c < len s.
Proof.
  induction s as [|a s IH]; simpl.
  - unfold len; simpl. lia.
  - rewrite len_String. destruct (Ascii.eqb a c); [lia|].
    destruct (Z.ltb_spec (IndexByte s c) 0); lia.
Qed.

Lemma IndexByte_get s c :
  0 <= IndexByte s c → String.get (Z.to_nat (IndexByte s c)) s = Some c.
Proof.
  induction s as [|a s IH]; simpl; [lia|].
  destruct (Ascii.eqb_spec a c) as [->|Hne]; [done|].
  destruct (Z.ltb_spec (IndexByte s c) 0) as [Hlt|Hge]; [lia|].
  intros _. replace (Z.to_nat (IndexByte s c + 1)) with (S (Z.to_nat (IndexByte s c)))
    by lia.
  by apply IH.
Qed.

Lemma IndexByte_skip a s c :
  Ascii.eqb a c = false → 0 <= IndexByte (String a s) c →
  0 <= IndexByte s c ∧ IndexByte (String a s) c = IndexByte s c + 1.
Proof.
  intros Hne. simpl. rewrite Hne.
  destruct (Z.ltb_spec (IndexByte s c) 0); lia.
Qed.

Lemma prefix_split p s : String.prefix p s = true → ∃ rest, s = p +:+ rest.
Proof.
  revert s. induction p as [|a p IH]; intros s; simpl.
  - by exists s.
  - destruct s as [|b s]; [done|]. simpl.
    destruct (ascii_dec a b) as [->|]; [|done].
    intros Hp. destruct (IH s) as [rest ->]; [by destruct p|]. by exists rest.
Qed.

Lemma HasPrefix_tabAt line :
  HasPrefix line tabAt = true → ∃ rest, line = tabAt +:+ rest.
Proof. apply prefix_split. Qed.

(** A line with the prefix of a frame line neither has the prefix of a cause
    line nor panics [closesParen]. *)
Lemma closesParen_total line parenIdx :
  HasPrefix line tabAt = true → ∃ b, closesParen line parenIdx = Ok b.
Proof.
  intros [rest ->]%HasPrefix_tabAt. unfold closesParen.
  destruct (0 <=? parenIdx); [|by eexists].
  destruct (byteAt_ok (tabAt +:+ rest) (len (tabAt +:+ rest) - 1)) as (c & -> & _).
  - unfold len. simpl. lia.
  - lia.
  - by eexists.
Qed.

Lemma javaIsFrame_total line : ∃ b, javaIsFrame line = Ok b.
Proof.
  unfold javaIsFrame. destruct (HasPrefix line tabAt) eqn:Hp; [|by eexists].
  by apply closesParen_total.
Qed.

(** The frame branch of the Java parser never panics. *)
Lemma javaFrame_total line :
  HasPrefix line tabAt = true → ∃ fr, javaFrame line = Ok fr.
Proof.
  intros Hp. unfold javaFrame.
  destruct (closesParen_total line (IndexByte line "(") Hp) as [ok Hok].
  rewrite Hok. unfold mbind at 1, Res_bind at 1.
  destruct ok; [|by eexists].
  unfold closesParen in Hok.
  destruct (Z.leb_spec 0 (IndexByte line "(")) as [Hparen|]; [|done].
  destruct (byteAt _ _) as [c|] eqn:Hlast; [|done]. simpl in Hok.
  injection Hok as Hc. apply Ascii.eqb_eq in Hc as ->.
  apply byteAt_get in Hlast.
  pose proof (IndexByte_get line "(" Hparen) as Hopen.
  pose proof (IndexByte_range line "(") as Hrange.
  assert (IndexByte line "(" ≠ len line - 1) as Hne.
  { intros Heq. rewrite Heq in Hopen. rewrite Hopen in Hlast. discriminate. }
  assert (4 <= IndexByte line "(") as Hfour.
  { destruct (HasPrefix_tabAt line Hp) as [rest ->].
    change (tabAt +:+ rest)
      with (String tab (String "a" (String "t" (String " " rest)))) in *.
    apply IndexByte_skip in Hparen as [H1 ->]; [|done].
    apply IndexByte_skip in H1 as [H2 ->]; [|done].
    apply IndexByte_skip in H2 as [H3 ->]; [|done].
    apply IndexByte_skip in H3 as [H4 ->]; [|done]. lia. }
  rewrite (slice_ok line (len tabAt)) by (change (len tabAt) with 4; lia).
  rewrite (slice_ok line (IndexByte line "(" + 1)) by lia.
  cbn [mbind Res_bind].
  set (label := String.substring (Z.to_nat (len tabAt)) _ line).
  set (path := String.substring _ _ line).
  pose proof (IndexByte_range label "/") as Hslash.
  pose proof (IndexByte_range path ":") as Hcolon.
  assert (∃ label', (if 0 <=? IndexByte label "/"
                     then sliceFrom label (IndexByte label "/" + 1)
                     else mret label) = Ok label') as [label' ->].
  { destruct (Z.leb_spec 0 (IndexByte label "/")); [|by eexists].
    rewrite sliceFrom_ok by lia. by eexists. }
  cbn [mbind Res_bind].
  destruct (Z.leb_spec 0 (IndexByte path ":")); [|by eexists].
  rewrite sliceFrom_ok, slice_ok by lia. by eexists.
Qed.

(** ** Running the parsers *)

Lemma G_bind_lift {A B} (r : Res A) (k : A → G B) g :
  (lift r ≫= k) g = match r with Ok a => k a g | Panic e => Panic e end.
Proof. unfold mbind, G_bind, lift. by destruct r. Qed.

Lemma G_bind_newID {B} (k : string → G B) g :
  (newSegmentIDHex ≫= k) g = k (nextID g) (nextGen g).
Proof. reflexivity. Qed.

Lemma appendCause_run exceptions exception causeType causeMessage g :
  appendCause exceptions exception causeType causeMessage g
  = Ok ((linkCause exceptions exception causeType causeMessage (nextID g),
         length exceptions), nextGen g).
Proof.
  unfold appendCause. rewrite G_bind_newID. unfold mret, G_ret, linkCause.
  do 3 f_equal. rewrite !length_alter, length_app. simpl. lia.
Qed.

Lemma javaLoop_eq line r exceptions exception :
  javaLoop line r exceptions exception
  = if HasPrefix line tabAt then
      fr ← lift (javaFrame line);
      let exceptions := addFrame fr exception exceptions in
      match r with
      | [] => mret exceptions
      | line :: r => javaLoop line r exceptions exception
      end
    else if HasPrefix line causedBy then
      '(causeType, causeMessage) ← lift (javaCauseHead line);
      javaPeek javaLoop exceptions exception causeType r causeMessage
    else
      match r with
      | [] => mret exceptions
      | line :: r => javaLoop line r exceptions exception
      end.
Proof. by destruct r. Qed.

(** ** One nested cause in a Java trace *)

Lemma sameButStack_refl l : Forall2 sameButStack l l.
Proof. by apply Forall_Forall2_diag, Forall_forall. Qed.

Lemma sameButStack_trans l1 l2 l3 :
  Forall2 sameButStack l1 l2 → Forall2 sameButStack l2 l3 →
  Forall2 sameButStack l1 l3.
Proof.
  intros H12. revert l3. induction H12 as [|a b l1 l2 Hab _ IH]; intros l3 H23.
  - by inversion H23.
  - inversion H23 as [|? c ? l3' Hbc Hrest]; subst. constructor; [|by apply IH].
    destruct Hab as (?&?&?&?), Hbc as (?&?&?&?). repeat split; congruence.
Qed.

Lemma sameButStack_addFrame fr exception l1 l2 :
  Forall2 sameButStack l1 l2 →
  Forall2 sameButStack l1 (addFrame fr exception l2).
Proof.
  intros H. destruct fr as [f|]; [|done]. simpl.
  apply Forall2_alter_r; [done|]. by intros x y _ _ Hxy.
Qed.

Lemma causedBy_not_frame line :
  HasPrefix line causedBy = true → HasPrefix line tabAt = false.
Proof. intros [rest ->]%prefix_split. reflexivity. Qed.

(** Without a cause line the loop draws no identifier and touches the
    stacks only. *)
Lemma javaLoop_flat r : ∀ line exceptions exception g,
  noCause line → Forall noCause r →
  ∃ exceptions', javaLoop line r exceptions exception g = Ok (exceptions', g)
                 ∧ Forall2 sameButStack exceptions exceptions'.
Proof.
  induction r as [|line' r IH]; intros line excs cur g Hline Hr;
    rewrite javaLoop_eq, Hline;
    destruct (HasPrefix line tabAt) eqn:Hp.
  - destruct (javaFrame_total line Hp) as [fr Hfr].
    rewrite G_bind_lift, Hfr. cbv zeta. unfold mret, G_ret.
    eexists; split; [reflexivity|].
    apply sameButStack_addFrame, sameButStack_refl.
  - eexists; split; [reflexivity|]. apply sameButStack_refl.
  - destruct (javaFrame_total line Hp) as [fr Hfr].
    rewrite G_bind_lift, Hfr. cbv zeta. apply Forall_cons in Hr as [Hl' Hr].
    destruct (IH line' (addFrame fr cur excs) cur g Hl' Hr) as (excs' & -> & Hsame).
    eexists; split; [reflexivity|].
    eapply sameButStack_trans; [|exact Hsame].
    apply sameButStack_addFrame, sameButStack_refl.
  - apply Forall_cons in Hr as [Hl' Hr]. by apply IH.
Qed.

(** Before the cause line the loop only fills stacks. *)
Lemma javaLoop_until_cause causeLine after before : ∀ line exceptions exception g,
  noCause line → Forall noCause before →
  ∃ exceptions', Forall2 sameButStack exceptions exceptions'
    ∧ javaLoop line (before ++ causeLine :: after) exceptions exception g
      = javaLoop causeLine after exceptions' exception g.
Proof.
  induction before as [|line' before IH]; intros line excs cur g Hline Hb;
    rewrite javaLoop_eq, Hline; simpl;
    destruct (HasPrefix line tabAt) eqn:Hp.
  - destruct (javaFrame_total line Hp) as [fr Hfr].
    rewrite G_bind_lift, Hfr. cbv zeta.
    eexists; split; [|reflexivity].
    apply sameButStack_addFrame, sameButStack_refl.
  - eexists; split; [|reflexivity]. apply sameButStack_refl.
  - destruct (javaFrame_total line Hp) as [fr Hfr].
    rewrite G_bind_lift, Hfr. cbv zeta. apply Forall_cons in Hb as [Hl' Hb].
    destruct (IH line' (addFrame fr cur excs) cur g Hl' Hb) as (excs' & Hsame & ->).
    eexists; split; [|reflexivity].
    eapply sameButStack_trans; [|exact Hsame].
    apply sameButStack_addFrame, sameButStack_refl.
  - apply Forall_cons in Hb as [Hl' Hb]. by apply IH.
Qed.

(** After the cause line: message lines, then the frames of the cause. *)
Lemma javaPeek_flat exceptions exception causeType r : ∀ causeMessage g,
  Forall noCause r →
  ∃ message exceptions',
    javaPeek javaLoop exceptions exception causeType r causeMessage g
    = Ok (exceptions', nextGen g)
    ∧ Forall2 sameButStack
        (linkCause exceptions exception causeType message (nextID g)) exceptions'.
Proof.
  induction r as [|line r IH]; intros msg g Hr; simpl.
  - unfold mbind, G_bind. rewrite appendCause_run.
    eexists _, _; split; [reflexivity|]. apply sameButStack_refl.
  - apply Forall_cons in Hr as [Hline Hr].
    destruct (javaIsFrame_total line) as [stop Hstop].
    rewrite G_bind_lift, Hstop. destruct stop; [|by apply IH].
    unfold mbind, G_bind. rewrite appendCause_run.
    destruct (javaLoop_flat r line
                (linkCause exceptions exception causeType msg (nextID g))
                (length exceptions) (nextGen g) Hline Hr) as (excs' & -> & Hsame).
    by eexists _, _.
Qed.

Lemma javaLoop_at_cause causeLine after exceptions exception g causeType causeMessage :
  HasPrefix causeLine causedBy = true →
  javaCauseHead causeLine = Ok (causeType, causeMessage) →
  Forall noCause after →
  ∃ message exceptions',
    javaLoop causeLine after exceptions exception g = Ok (exceptions', nextGen g)
    ∧ Forall2 sameButStack
        (linkCause exceptions exception causeType message (nextID g)) exceptions'.
Proof.
  intros Hcause Hhead Hafter.
  rewrite javaLoop_eq, (causedBy_not_frame _ Hcause), Hcause.
  rewrite G_bind_lift, Hhead. by apply javaPeek_flat.
Qed.

Lemma sameButStack_singleton e l :
  Forall2 sameButStack [e] l → ∃ e', l = [e'] ∧ sameButStack e e'.
Proof.
  intros H. inversion H as [|? e' ? l' He Hl]; subst.
  inversion Hl; subst. by exists e'.
Qed.

Lemma NewReader_nonempty stacktrace line r :
  NewReader stacktrace = line :: r → String.eqb stacktrace EmptyString = false.
Proof. by destruct stacktrace. Qed.

Lemma parseException_java exceptionType message stacktrace g :
  String.eqb stacktrace EmptyString = false →
  parseException exceptionType message stacktrace "java" g
  = fillJavaStacktrace stacktrace
      [mkException (nextID g) exceptionType message [] None] (nextGen g).
Proof.
  intros Hne. unfold parseException. rewrite G_bind_newID. cbv zeta.
  by rewrite Hne.
Qed.

Lemma fillJavaStacktrace_lines stacktrace header line r e0 g :
  NewReader stacktrace = header :: line :: r →
  fillJavaStacktrace stacktrace [e0] g
  = javaLoop line r [withStack e0 []] 0%nat g.
Proof. intros Hlines. unfold fillJavaStacktrace. by rewrite Hlines. Qed.

(** C4.  [parseException] on the Java trace of the specification gives two
    records: the first with the frame of line 10 and the identifier of the
    second as its cause, the second with type "X", message "y" and the
    frame of line 20.  And in general: when exactly one line after the
    header line of a Java trace starts with "Caused by: " (and its type and
    message can be cut out), the parse gives exactly two records, the first
    of which names the second as its cause. *)
Theorem parseException_java_caused_by :
  (∀ exceptionType message g,
     parseException exceptionType message Sample.javaTrace "java" g
     = Ok ([mkException (nextID g) exceptionType message
              [mkStackFrame "File.java" "a.b.c" 10] (Some (nextID (nextGen g)));
            mkException (nextID (nextGen g)) "X" "y"
              [mkStackFrame "File.java" "a.b.c" 20] None],
           nextGen (nextGen g)))
  ∧ (∀ exceptionType message stacktrace header before causeLine after g
       causeType causeMessage,
       NewReader stacktrace = header :: before ++ causeLine :: after →
       Forall noCause (before ++ after) →
       HasPrefix causeLine causedBy = true →
       javaCauseHead causeLine = Ok (causeType, causeMessage) →
       ∃ first second,
         parseException exceptionType message stacktrace "java" g
         = Ok ([first; second], nextGen (nextGen g))
         ∧ Cause first = Some (ID second)
         ∧ ID first = nextID g ∧ Type_ first = exceptionType
         ∧ Message first = message
         ∧ ID second = nextID (nextGen g) ∧ Type_ second = causeType
         ∧ Cause second = None).
Proof.
  split; [reflexivity|].
  intros ty msg stacktrace header before causeLine after g cty cmsg
    Hlines Hno Hcause Hhead.
  apply Forall_app in Hno as [Hbefore Hafter].
  rewrite parseException_java by (by eapply NewReader_nonempty).
  set (e0 := mkException (nextID g) ty msg [] None).
  assert (∃ x, sameButStack (withStack e0 []) x
               ∧ fillJavaStacktrace stacktrace [e0] (nextGen g)
                 = javaLoop causeLine after [x] 0%nat (nextGen g))
    as (x & Hx & ->).
  { destruct before as [|line before]; simpl in Hlines;
      rewrite (fillJavaStacktrace_lines _ _ _ _ _ _ Hlines).
    - exists (withStack e0 []). by split.
    - apply Forall_cons in Hbefore as [Hline Hbefore].
      destruct (javaLoop_until_cause causeLine after before line
                  [withStack e0 []] 0%nat (nextGen g) Hline Hbefore)
        as (excs1 & Hsame & ->).
      apply sameButStack_singleton in Hsame as (x & -> & Hx). by exists x. }
  destruct (javaLoop_at_cause causeLine after [x] 0%nat (nextGen g) cty cmsg
              Hcause Hhead Hafter) as (m & excs' & -> & Hsame).
  change (linkCause [x] 0%nat cty m (nextID (nextGen g)))
    with [withCause x (nextID (nextGen g));
          mkException (nextID (nextGen g)) cty m [] None] in Hsame.
  inversion Hsame as [|? first ? rest Hfirst Hrest]; subst.
  apply sameButStack_singleton in Hrest as (second & -> & Hsecond).
  exists first, second. split; [reflexivity|].
  destruct Hx as (?&?&?&?), Hfirst as (?&?&?&?), Hsecond as (?&?&?&?).
  simpl in *. repeat split; congruence.
Qed.

Lemma parseException_java_caused_by_witness :
  ∃ first second,
    parseException "T" "m" Sample.javaTrace "java" Sample.g0
    = Ok ([first; second], nextGen (nextGen Sample.g0))
    ∧ Cause first = Some (ID second) ∧ Type_ second = "X".
Proof.
  destruct parseException_java_caused_by as [_ Hgeneral].
  destruct (Hgeneral "T" "m" Sample.javaTrace "E"
              [tabAt +:+ "a.b.c(File.java:10)"] "Caused by: X: y"
              [tabAt +:+ "a.b.c(File.java:20)"] Sample.g0 "X" "y")
    as (first & second & Hrun & Hlink & _ & _ & _ & _ & Htype & _).
  - reflexivity.
  - repeat constructor.
  - reflexivity.
  - reflexivity.
  - by exists first, second.
Defined.

(** ** The pairs of a Go trace *)

Lemma goLoop_eq line r path lineNumber exceptions :
  goLoop line r path lineNumber exceptions
  = let turn (label : string) (r : list string) : list Exception :=
      match r with
      | [] =>
          let '(path, lineNumber) := goPathLine EmptyString path lineNumber in
          addFrame (Some (mkStackFrame path label lineNumber)) 0%nat exceptions
      | line :: r =>
          let '(path, lineNumber) := goPathLine line path lineNumber in
          let exceptions :=
            addFrame (Some (mkStackFrame path label lineNumber)) 0%nat exceptions in
          match r with
          | [] => exceptions
          | line :: r => goLoop line r path lineNumber exceptions
          end
      end in
    if reMatch line then
      match r with
      | [] => turn EmptyString []
      | line :: r => turn line r
      end
    else turn line r.
Proof. by destruct r. Qed.

Lemma pairFrames_length pairs : ∀ path lineNumber,
  length (pairFrames path lineNumber pairs) = length pairs.
Proof.
  induction pairs as [|[label next] pairs IH]; intros path n; simpl; [done|].
  destruct (plnreFindStringSubmatch next) as [[p d]|]; simpl; by rewrite IH.
Qed.

(** The frame of the [i]-th pair: its label is the label line; its path and
    line number come from the next line, or from the frame before. *)
Lemma pairFrames_lookup pairs : ∀ path lineNumber i label next,
  pairs !! i = Some (label, next) →
  ∃ f, pairFrames path lineNumber pairs !! i = Some f
    ∧ Label f = label
    ∧ match plnreFindStringSubmatch next with
      | Some (p, digits) => Path f = p ∧ Line f = (Atoi digits).1
      | None =>
          match i with
          | O => Path f = path ∧ Line f = lineNumber
          | S j => ∃ f', pairFrames path lineNumber pairs !! j = Some f'
                         ∧ Path f = Path f' ∧ Line f = Line f'
          end
      end.
Proof.
  induction pairs as [|[label0 next0] pairs IH]; intros path n i label next Hi;
    [done|].
  destruct i as [|i]; simpl in Hi.
  - injection Hi as -> ->. simpl.
    destruct (plnreFindStringSubmatch next) as [[p d]|]; by eexists.
  - simpl. destruct (plnreFindStringSubmatch next0) as [[p0 d0]|].
    + destruct (IH p0 (Atoi d0).1 i label next Hi) as (f & Hf & Hl & Hm).
      exists f. simpl. split; [done|]. split; [done|].
      destruct (plnreFindStringSubmatch next) as [[p d]|]; [done|].
      destruct i as [|i]; [|done]. by eexists.
    + destruct (IH path n i label next Hi) as (f & Hf & Hl & Hm).
      exists f. simpl. split; [done|]. split; [done|].
      destruct (plnreFindStringSubmatch next) as [[p d]|]; [done|].
      destruct i as [|i]; [|done]. by eexists.
Qed.

(** The loop over complete groups appends the frames of their pairs to the
    first record. *)
Lemma goLoop_groups groups : ∀ line r path lineNumber exceptions,
  Forall wellFormed groups →
  line :: r = flat_map groupLines groups →
  goLoop line r path lineNumber exceptions
  = alter (λ e, withStack e (Stack e ++ pairFrames path lineNumber groups.*2))
      0%nat exceptions.
Proof.
  induction groups as [|[header [label next]] groups IH];
    intros line r path n excs Hwf Hlines; [done|].
  apply Forall_cons in Hwf as [Hg Hwf].
  assert (∀ path' n',
    match flat_map groupLines groups with
    | [] => addFrame (Some (mkStackFrame path' label n')) 0%nat excs
    | line :: r =>
        goLoop line r path' n'
          (addFrame (Some (mkStackFrame path' label n')) 0%nat excs)
    end
    = alter (λ e, withStack e (Stack e ++ mkStackFrame path' label n'
                                 :: pairFrames path' n' groups.*2)) 0%nat excs)
    as Hrest.
  { intros path' n'. destruct (flat_map groupLines groups) as [|line' r'] eqn:Hflat.
    - destruct groups as [|[[h|] [l x]] groups']; [|done..]. done.
    - rewrite (IH line' r' path' n' _ Hwf eq_refl). simpl.
      rewrite list_alter_alter_eq. apply list_alter_ext; [|done].
      intros e _. unfold withStack, appendFrame; simpl.
      by rewrite <-app_assoc. }
  rewrite goLoop_eq. cbv zeta. unfold wellFormed in Hg.
  destruct header as [header|]; simpl in Hg, Hlines;
    injection Hlines as -> ->; rewrite Hg; simpl pairFrames;
    unfold goPathLine;
    destruct (plnreFindStringSubmatch next) as [[p d]|]; apply Hrest.
Qed.

(** C7.  When the lines of a Go trace after the first are complete groups,
    each a label line and a next line with the header line in front of it
    or not, [fillGoStacktrace] gives the first record one frame for every
    pair, in order, whether or not the pattern matches the next line; the
    label of the frame is the label line, its path and line number are
    those matched in the next line and, without a match, those of the frame
    before it (the empty path and zero for the first frame). *)
Theorem fillGoStacktrace_frame_per_pair stacktrace first groups e0 :
  NewReader stacktrace = first :: flat_map groupLines groups →
  groups ≠ [] →
  Forall wellFormed groups →
  let frames := pairFrames EmptyString 0 groups.*2 in
  fillGoStacktrace stacktrace [e0] = Ok [withStack e0 frames]
  ∧ length frames = length groups
  ∧ ∀ i label next, groups.*2 !! i = Some (label, next) →
      ∃ f, frames !! i = Some f
        ∧ Label f = label
        ∧ match plnreFindStringSubmatch next with
          | Some (p, digits) => Path f = p ∧ Line f = (Atoi digits).1
          | None =>
              match i with
              | O => Path f = EmptyString ∧ Line f = 0
              | S j => ∃ f', frames !! j = Some f'
                             ∧ Path f = Path f' ∧ Line f = Line f'
              end
          end.
Proof.
  intros Hlines Hne Hwf frames. split; [|split].
  - unfold fillGoStacktrace. rewrite Hlines. simpl ReadLine. cbv iota beta zeta.
    destruct (flat_map groupLines groups) as [|line r] eqn:Hflat.
    { destruct groups as [|[[h|] [l x]] groups']; done. }
    simpl ReadLine. cbv iota beta.
    by rewrite (goLoop_groups groups line r _ _ _ Hwf).
  - unfold frames. by rewrite pairFrames_length, length_fmap.
  - intros i label next Hi. by apply pairFrames_lookup.
Qed.

Lemma fillGoStacktrace_frame_per_pair_witness :
  fillGoStacktrace Sample.goTrace [Sample.e0]
  = Ok [withStack Sample.e0
          [mkStackFrame "/path/file.go" "main.f(...)" 12;
           mkStackFrame "/path/file.go" "main.main()" 12]].
Proof.
  refine (proj1 (fillGoStacktrace_frame_per_pair Sample.goTrace "E"
                   Sample.goGroups Sample.e0 _ _ _)).
  - reflexivity.
  - discriminate.
  - repeat constructor.
Defined.

(** ** Two runs, two states of the random source *)

Section Similar.
(** The random source at the start of the first and of the second run. *)
Variables g1 g2 : IdGen.

Lemma aligned_start : aligned g1 g2 g1 g2.
Proof. repeat split. exists 0%nat. lia. Qed.

Lemma bothG_ret {A} (R : A → A → Prop) a1 a2 h1 h2 :
  R a1 a2 → aligned g1 g2 h1 h2 →
  bothG g1 g2 R ((mret a1 : G A) h1) ((mret a2 : G A) h2).
Proof. by split. Qed.

Lemma bothG_bind {A B} (R : A → A → Prop) (R' : B → B → Prop)
    (m1 m2 : G A) (k1 k2 : A → G B) h1 h2 :
  bothG g1 g2 R (m1 h1) (m2 h2) →
  (∀ a1 a2 h1' h2', R a1 a2 → aligned g1 g2 h1' h2' →
     bothG g1 g2 R' (k1 a1 h1') (k2 a2 h2')) →
  bothG g1 g2 R' ((m1 ≫= k1) h1) ((m2 ≫= k2) h2).
Proof.
  unfold mbind, G_bind, bothG, bothRes. intros Hm Hk.
  destruct (m1 h1) as [[a1 h1']|e1], (m2 h2) as [[a2 h2']|e2]; try done.
  destruct Hm as [HR Hal]. by apply Hk.
Qed.

(** A step that does not draw, fed related arguments. *)
Lemma bothG_lift {A} (R : A → A → Prop) (r1 r2 : Res A) h1 h2 :
  bothRes R r1 r2 → aligned g1 g2 h1 h2 → bothG g1 g2 R (lift r1 h1) (lift r2 h2).
Proof.
  unfold bothG, bothRes, lift. by destruct r1, r2.
Qed.

Lemma bothG_lift_same {A B} (R' : B → B → Prop) (r : Res A) (k1 k2 : A → G B)
    h1 h2 :
  aligned g1 g2 h1 h2 →
  (∀ a, r = Ok a → bothG g1 g2 R' (k1 a h1) (k2 a h2)) →
  bothG g1 g2 R' ((lift r ≫= k1) h1) ((lift r ≫= k2) h2).
Proof.
  intros Hal Hk. rewrite !G_bind_lift. destruct r as [a|e]; [by apply Hk|done].
Qed.

Lemma aligned_next h1 h2 :
  aligned g1 g2 h1 h2 → aligned g1 g2 (nextGen h1) (nextGen h2).
Proof.
  intros (Hs1 & Hs2 & d & Hd1 & Hd2). repeat split; [done..|].
  exists (S d). simpl. lia.
Qed.

Lemma sameDraw_next h1 h2 :
  aligned g1 g2 h1 h2 → sameDraw g1 g2 (nextID h1) (nextID h2).
Proof.
  intros (Hs1 & Hs2 & d & Hd1 & Hd2). exists d. unfold nextID.
  by rewrite Hs1, Hs2, Hd1, Hd2.
Qed.

Lemma similar_alter (f1 f2 : Exception → Exception) i l1 l2 :
  (∀ e1 e2, similar g1 g2 e1 e2 → similar g1 g2 (f1 e1) (f2 e2)) →
  Forall2 (similar g1 g2) l1 l2 →
  Forall2 (similar g1 g2) (alter f1 i l1) (alter f2 i l2).
Proof. intros Hf Hl. apply Forall2_alter; [done|]. intros; by apply Hf. Qed.

Lemma similar_withStack st e1 e2 :
  similar g1 g2 e1 e2 → similar g1 g2 (withStack e1 st) (withStack e2 st).
Proof. intros (?&?&?&?&?). by repeat split. Qed.

Lemma similar_addFrame fr i l1 l2 :
  Forall2 (similar g1 g2) l1 l2 →
  Forall2 (similar g1 g2) (addFrame fr i l1) (addFrame fr i l2).
Proof.
  intros Hl. destruct fr as [f|]; [|done]. apply similar_alter; [|done].
  intros e1 e2 (?&?&Hst&?&?). repeat split; simpl; try done. by rewrite Hst.
Qed.

Lemma similar_linkCause exception causeType causeMessage id1 id2 l1 l2 :
  sameDraw g1 g2 id1 id2 → Forall2 (similar g1 g2) l1 l2 →
  Forall2 (similar g1 g2) (linkCause l1 exception causeType causeMessage id1)
                  (linkCause l2 exception causeType causeMessage id2).
Proof.
  intros Hid Hl. unfold linkCause.
  rewrite !length_app, (Forall2_length _ _ _ Hl).
  assert (∀ e1 e2, similar g1 g2 e1 e2 →
            similar g1 g2 (withCause e1 id1) (withCause e2 id2))
    as Hcause.
  { intros e1 e2 (?&?&?&?&?). repeat split; try done. by constructor. }
  apply similar_alter, similar_alter, Forall2_app; try done.
  repeat constructor; simpl; done.
Qed.

Lemma similar_appendCause exception causeType causeMessage l1 l2 h1 h2 :
  Forall2 (similar g1 g2) l1 l2 → aligned g1 g2 h1 h2 →
  bothG g1 g2 (λ p1 p2, Forall2 (similar g1 g2) p1.1 p2.1 ∧ p1.2 = p2.2)
    (appendCause l1 exception causeType causeMessage h1)
    (appendCause l2 exception causeType causeMessage h2).
Proof.
  intros Hl Hal. rewrite !appendCause_run. split; [|by apply aligned_next].
  split; simpl; [|by apply Forall2_length in Hl].
  by apply similar_linkCause; [apply sameDraw_next|].
Qed.

(** *** The Java parser *)

Lemma similar_javaPeek causeType r :
  (∀ line r' l1 l2 exception h1 h2,
     (length r' < length r)%nat →
     Forall2 (similar g1 g2) l1 l2 → aligned g1 g2 h1 h2 →
     bothG g1 g2 (Forall2 (similar g1 g2)) (javaLoop line r' l1 exception h1)
                             (javaLoop line r' l2 exception h2)) →
  ∀ causeMessage l1 l2 exception h1 h2,
    Forall2 (similar g1 g2) l1 l2 → aligned g1 g2 h1 h2 →
    bothG g1 g2 (Forall2 (similar g1 g2))
      (javaPeek javaLoop l1 exception causeType r causeMessage h1)
      (javaPeek javaLoop l2 exception causeType r causeMessage h2).
Proof.
  induction r as [|line r IH]; intros Hloop msg l1 l2 cur h1 h2 Hl Hal;
    cbn [javaPeek].
  - eapply bothG_bind; [by apply similar_appendCause|].
    intros [k1 c1] [k2 c2] h1' h2' [Hk _] Hal'. by apply bothG_ret.
  - apply bothG_lift_same; [done|]. intros stop _. destruct stop.
    + eapply bothG_bind; [by apply similar_appendCause|].
      intros [k1 c1] [k2 c2] h1' h2' [Hk Hc] Hal'. simpl in *. subst c2.
      apply Hloop; [simpl; lia|done..].
    + apply IH; [|done..]. intros. apply Hloop; [simpl; lia|done..].
Qed.

Lemma similar_javaLoop r : ∀ line l1 l2 exception h1 h2,
  Forall2 (similar g1 g2) l1 l2 → aligned g1 g2 h1 h2 →
  bothG g1 g2 (Forall2 (similar g1 g2)) (javaLoop line r l1 exception h1)
                          (javaLoop line r l2 exception h2).
Proof.
  induction r as [r IH] using (induction_ltof1 _ length).
  unfold ltof in IH.
  intros line l1 l2 cur h1 h2 Hl Hal. rewrite !javaLoop_eq.
  assert (bothG g1 g2 (Forall2 (similar g1 g2))
            (match r return G (list Exception) with
             | [] => mret l1
             | line :: r => javaLoop line r l1 cur
             end h1)
            (match r return G (list Exception) with
             | [] => mret l2
             | line :: r => javaLoop line r l2 cur
             end h2)) as Hskip.
  { destruct r as [|line' r']; [by apply bothG_ret|].
    apply IH; [simpl; lia|done..]. }
  destruct (HasPrefix line tabAt).
  - apply bothG_lift_same; [done|]. intros fr _. cbv zeta.
    destruct r as [|line' r'].
    + apply bothG_ret; [|done]. by apply similar_addFrame.
    + apply IH; [simpl; lia| |done]. by apply similar_addFrame.
  - destruct (HasPrefix line causedBy); [|done].
    apply bothG_lift_same; [done|]. intros [ty msg] _.
    apply similar_javaPeek; [|done..]. intros. by apply IH.
Qed.

(** *** The Python parser *)

Lemma similar_pythonSearch lines lineIdx bound :
  (∀ k l1 l2 exception h1 h2,
     (k ≤ bound)%nat → Forall2 (similar g1 g2) l1 l2 → aligned g1 g2 h1 h2 →
     bothG g1 g2 (Forall2 (similar g1 g2)) (pythonLoop lines k l1 exception h1)
                             (pythonLoop lines k l2 exception h2)) →
  ∀ k l1 l2 exception h1 h2,
    (k ≤ bound)%nat → Forall2 (similar g1 g2) l1 l2 → aligned g1 g2 h1 h2 →
    bothG g1 g2 (Forall2 (similar g1 g2))
      (pythonSearch (pythonLoop lines) lines lineIdx l1 exception k h1)
      (pythonSearch (pythonLoop lines) lines lineIdx l2 exception k h2).
Proof.
  intros Hloop. induction k as [|nextFileLineIdx IH];
    intros l1 l2 cur h1 h2 Hk Hl Hal; cbn [pythonSearch].
  - by apply bothG_ret.
  - apply bothG_lift_same; [done|]. intros l _.
    destruct (HasPrefix l fileMark); [|apply IH; [lia|done..]].
    apply bothG_lift_same; [done|]. intros between _. cbv zeta.
    destruct (_ <? 0); [by apply bothG_ret|].
    apply bothG_lift_same; [done|]. intros causeType _.
    apply bothG_lift_same; [done|]. intros causeMessage _.
    eapply bothG_bind; [by apply similar_appendCause|].
    intros [k1 c1] [k2 c2] h1' h2' [Hk' Hc] Hal'. cbn [fst snd] in Hk', Hc.
    subst c2. cbv beta iota. by apply Hloop.
Qed.

Lemma similar_pythonLoop lines n : ∀ l1 l2 exception h1 h2,
  Forall2 (similar g1 g2) l1 l2 → aligned g1 g2 h1 h2 →
  bothG g1 g2 (Forall2 (similar g1 g2)) (pythonLoop lines n l1 exception h1)
                          (pythonLoop lines n l2 exception h2).
Proof.
  induction n as [n IH] using lt_wf_ind.
  intros l1 l2 cur h1 h2 Hl Hal. destruct n as [|lineIdx]; cbn [pythonLoop].
  - by apply bothG_ret.
  - apply bothG_lift_same; [done|]. intros line _.
    destruct (HasPrefix line fileMark).
    + apply bothG_lift_same; [done|]. intros fr _.
      apply IH; [lia| |done]. by apply similar_addFrame.
    + destruct (HasPrefix line duringHandling); [|by apply IH; [lia|..]].
      apply (similar_pythonSearch lines lineIdx lineIdx); [|done..].
      intros. apply IH; [lia|done..].
Qed.

Lemma similar_fillJavaStacktrace stacktrace l1 l2 h1 h2 :
  Forall2 (similar g1 g2) l1 l2 → aligned g1 g2 h1 h2 →
  bothG g1 g2 (Forall2 (similar g1 g2)) (fillJavaStacktrace stacktrace l1 h1)
                          (fillJavaStacktrace stacktrace l2 h2).
Proof.
  intros Hl Hal. unfold fillJavaStacktrace.
  destruct (ReadLine (NewReader stacktrace)) as [[_ r] _].
  destruct Hl as [|e1 e2 l1 l2 He Hl]; [done|].
  destruct (ReadLine r) as [[line r'] ok]. destruct ok.
  - apply similar_javaLoop; [|done].
    apply similar_alter; [apply similar_withStack|by constructor].
  - apply bothG_ret; [by constructor|done].
Qed.

Lemma similar_fillPythonStacktrace stacktrace l1 l2 h1 h2 :
  Forall2 (similar g1 g2) l1 l2 → aligned g1 g2 h1 h2 →
  bothG g1 g2 (Forall2 (similar g1 g2)) (fillPythonStacktrace stacktrace l1 h1)
                          (fillPythonStacktrace stacktrace l2 h2).
Proof.
  intros Hl Hal. unfold fillPythonStacktrace. cbv zeta.
  destruct (_ <? 0); [by apply bothG_ret|].
  destruct Hl as [|e1 e2 l1 l2 He Hl]; [done|].
  apply similar_pythonLoop; [|done].
  apply similar_alter; [apply similar_withStack|by constructor].
Qed.

(** *** The parsers that draw no identifier *)

Lemma similar_javaScriptLoop r : ∀ line l1 l2,
  Forall2 (similar g1 g2) l1 l2 →
  bothRes (Forall2 (similar g1 g2)) (javaScriptLoop line r l1)
                                    (javaScriptLoop line r l2).
Proof.
  induction r as [|line' r IH]; intros line l1 l2 Hl; cbn [javaScriptLoop];
    (destruct (HasPrefix line "    at ");
     [destruct (javaScriptFrame line) as [fr|e]; [|done]|]);
    cbn [mbind Res_bind mret Res_ret];
    try apply IH; try apply similar_addFrame; done.
Qed.

Lemma similar_dotnetLoop r : ∀ line l1 l2,
  Forall2 (similar g1 g2) l1 l2 →
  bothRes (Forall2 (similar g1 g2)) (dotnetLoop line r l1) (dotnetLoop line r l2).
Proof.
  induction r as [|line' r IH]; intros line l1 l2 Hl; cbn [dotnetLoop];
    (destruct (HasPrefix line tabAt);
     [destruct (dotnetFrame line) as [fr|e]; [|done]|]);
    cbn [mbind Res_bind mret Res_ret];
    try apply IH; try apply similar_addFrame; done.
Qed.

Lemma similar_goLoop r : ∀ line path lineNumber l1 l2,
  Forall2 (similar g1 g2) l1 l2 →
  Forall2 (similar g1 g2) (goLoop line r path lineNumber l1)
                  (goLoop line r path lineNumber l2).
Proof.
  induction r as [r IH] using (induction_ltof1 _ length). unfold ltof in IH.
  intros line path n l1 l2 Hl. rewrite !goLoop_eq.
  assert (∀ label r', (length r' ≤ length r)%nat →
    Forall2 (similar g1 g2)
      (match r' with
       | [] =>
           let '(path, lineNumber) := goPathLine EmptyString path n in
           addFrame (Some (mkStackFrame path label lineNumber)) 0%nat l1
       | line :: r =>
           let '(path, lineNumber) := goPathLine line path n in
           let exceptions :=
             addFrame (Some (mkStackFrame path label lineNumber)) 0%nat l1 in
           match r with
           | [] => exceptions
           | line :: r => goLoop line r path lineNumber exceptions
           end
       end)
      (match r' with
       | [] =>
           let '(path, lineNumber) := goPathLine EmptyString path n in
           addFrame (Some (mkStackFrame path label lineNumber)) 0%nat l2
       | line :: r =>
           let '(path, lineNumber) := goPathLine line path n in
           let exceptions :=
             addFrame (Some (mkStackFrame path label lineNumber)) 0%nat l2 in
           match r with
           | [] => exceptions
           | line :: r => goLoop line r path lineNumber exceptions
           end
       end)) as Hturn.
  { intros label r' Hlen. destruct r' as [|next r''].
    - destruct (goPathLine _ _ _). by apply similar_addFrame.
    - destruct (goPathLine _ _ _). cbv zeta. destruct r'' as [|line' r'''].
      + by apply similar_addFrame.
      + apply IH; [simpl in *; lia|]. by apply similar_addFrame. }
  cbv zeta. destruct (reMatch line).
  - destruct r as [|label r'].
    + by apply (Hturn EmptyString []).
    + apply (Hturn label r'). simpl. lia.
  - by apply (Hturn line r).
Qed.

Lemma similar_fillJavaScriptStacktrace stacktrace l1 l2 :
  Forall2 (similar g1 g2) l1 l2 →
  bothRes (Forall2 (similar g1 g2)) (fillJavaScriptStacktrace stacktrace l1)
                            (fillJavaScriptStacktrace stacktrace l2).
Proof.
  intros Hl. unfold fillJavaScriptStacktrace.
  destruct (ReadLine (NewReader stacktrace)) as [[_ r] _].
  destruct Hl as [|e1 e2 l1 l2 He Hl]; [done|].
  destruct (ReadLine r) as [[line r'] ok]. destruct ok.
  - apply similar_javaScriptLoop.
    apply similar_alter; [apply similar_withStack|by constructor].
  - by constructor.
Qed.

Lemma similar_fillDotnetStacktrace stacktrace l1 l2 :
  Forall2 (similar g1 g2) l1 l2 →
  bothRes (Forall2 (similar g1 g2)) (fillDotnetStacktrace stacktrace l1)
                            (fillDotnetStacktrace stacktrace l2).
Proof.
  intros Hl. unfold fillDotnetStacktrace.
  destruct (ReadLine (NewReader stacktrace)) as [[_ r] _].
  destruct Hl as [|e1 e2 l1 l2 He Hl]; [done|].
  destruct (ReadLine r) as [[line r'] ok]. destruct ok.
  - apply similar_dotnetLoop.
    apply similar_alter; [apply similar_withStack|by constructor].
  - by constructor.
Qed.

Lemma similar_fillGoStacktrace stacktrace l1 l2 :
  Forall2 (similar g1 g2) l1 l2 →
  bothRes (Forall2 (similar g1 g2)) (fillGoStacktrace stacktrace l1)
                            (fillGoStacktrace stacktrace l2).
Proof.
  intros Hl. unfold fillGoStacktrace.
  destruct (ReadLine (NewReader stacktrace)) as [[_ r] _].
  destruct Hl as [|e1 e2 l1 l2 He Hl]; [done|].
  destruct (ReadLine r) as [[line r'] ok]. destruct ok.
  - apply similar_goLoop.
    apply similar_alter; [apply similar_withStack|by constructor].
  - by constructor.
Qed.

(** *** [parseException] and the loop over the events *)

Lemma similar_parseException exceptionType message stacktrace language h1 h2 :
  aligned g1 g2 h1 h2 →
  bothG g1 g2 (Forall2 (similar g1 g2))
    (parseException exceptionType message stacktrace language h1)
    (parseException exceptionType message stacktrace language h2).
Proof.
  intros Hal. unfold parseException. rewrite !G_bind_newID. cbv zeta.
  assert (Forall2 (similar g1 g2)
            [mkException (nextID h1) exceptionType message [] None]
            [mkException (nextID h2) exceptionType message [] None]) as Hl.
  { repeat constructor; simpl; try done. by apply sameDraw_next. }
  pose proof (aligned_next _ _ Hal) as Hal'.
  repeat (match goal with
          | |- context [if ?b then _ else _] => destruct b
          end;
          [first [ by apply bothG_ret
                 | by apply similar_fillJavaStacktrace
                 | by apply similar_fillPythonStacktrace
                 | apply bothG_lift; [|done];
                   first [ by apply similar_fillJavaScriptStacktrace
                         | by apply similar_fillDotnetStacktrace
                         | by apply similar_fillGoStacktrace ] ]|]).
  by apply bothG_ret.
Qed.

Lemma similar_parseEvents events language : ∀ l1 l2 h1 h2,
  Forall2 (similar g1 g2) l1 l2 → aligned g1 g2 h1 h2 →
  bothG g1 g2 (Forall2 (similar g1 g2)) (parseEvents events language l1 h1)
                          (parseEvents events language l2 h2).
Proof.
  induction events as [|event events IH]; intros l1 l2 h1 h2 Hl Hal;
    cbn [parseEvents].
  - by apply bothG_ret.
  - destruct (isExceptionEvent event); [|by apply IH].
    cbv zeta. eapply bothG_bind; [by apply similar_parseException|].
    intros p1 p2 h1' h2' Hp Hal'. apply IH; [|done]. by apply Forall2_app.
Qed.

End Similar.

(** ** PHP traces are parsed as Java traces *)

(** C8.  For the language "php" [parseException] is the very computation it
    is for "java"; run from any two states of the random source the two
    either panic alike or return records equal in number, order, types,
    messages and frames, with identifiers and causes that are the same
    draws. *)
Theorem parseException_php_as_java exceptionType message stacktrace :
  parseException exceptionType message stacktrace "php"
  = parseException exceptionType message stacktrace "java"
  ∧ ∀ g1 g2,
      bothG g1 g2 (Forall2 (similar g1 g2))
        (parseException exceptionType message stacktrace "php" g1)
        (parseException exceptionType message stacktrace "java" g2).
Proof.
  assert (parseException exceptionType message stacktrace "php"
          = parseException exceptionType message stacktrace "java") as Heq
    by reflexivity.
  split; [exact Heq|]. intros g1 g2. rewrite Heq.
  apply similar_parseException, aligned_start.
Qed.

(** ** [makeCause] twice *)

Lemma mapAt_insert_eq g (h : gmap loc (gmap string AttributeValue)) o l m :
  mapAt (mkWorld g (<[l := m]> h) o) l = m.
Proof. unfold mapAt; simpl. by rewrite lookup_insert_eq. Qed.

(** [makeCause] leaves the maps that exist, and the run time, as they
    are. *)
Lemma makeCause_keeps span attributes resource w r w' :
  makeCause span attributes resource w = Ok (r, w') →
  rangeOrder w' = rangeOrder w
  ∧ ∀ l, l ∈ dom (heap w) → mapAt w' l = mapAt w l.
Proof.
  intros Hrun.
  destruct (decide (Status_Code (Span_Status span) = StatusCodeError)) as [Hc|Hc].
  - rewrite makeCause_error in Hrun by done.
    destruct (hasExceptions span).
    + unfold mbind, M_bind, liftG, mret, M_ret in Hrun.
      destruct (parseEvents _ _ _ _) as [[excs g']|e]; simpl in Hrun; [|done].
      destruct (statusFlags span) as [[? ?] ?]. by injection Hrun as <- <-.
    + unfold mbind, M_bind, rangeMap, newMap, liftG, newSegmentIDHex, mret, M_ret
        in Hrun.
      destruct (filterAttributes _ _) as [message kept].
      assert (∀ l, l ∈ dom (heap w) → fresh (dom (heap w)) ≠ l) as Hne.
      { intros l Hl <-. by apply (is_fresh (dom (heap w))). }
      destruct (statusFlags span) as [[? ?] ?].
      destruct (negb _); simpl in Hrun; injection Hrun as <- <-;
        (split; [done|]); intros l Hl; unfold mapAt; simpl;
        by rewrite lookup_insert_ne by auto.
  - rewrite makeCause_early_return in Hrun by done. by injection Hrun as <- <-.
Qed.

Lemma makeCause_similar span attributes resource w1 w2 :
  fairRange w1 → fairRange w2 →
  mapAt w1 attributes = mapAt w2 attributes →
  bothRes (sameResult (gen w1) (gen w2))
    (makeCause span attributes resource w1)
    (makeCause span attributes resource w2).
Proof.
  intros Hfair1 Hfair2 Hmap.
  destruct (decide (Status_Code (Span_Status span) = StatusCodeError)) as [Hc|Hc].
  - destruct (hasExceptions span) eqn:Hhas.
    + rewrite !makeCause_error, Hhas by done.
      unfold mbind, M_bind, liftG, mret, M_ret.
      pose proof (similar_parseEvents (gen w1) (gen w2) (Span_Events span)
                    (language resource) [] [] (gen w1) (gen w2)
                    (List.Forall2_nil _) (aligned_start _ _)) as Hsim.
      unfold bothG, bothRes in Hsim.
      destruct (parseEvents _ _ _ (gen w1)) as [[excs1 h1]|e1],
               (parseEvents _ _ _ (gen w2)) as [[excs2 h2]|e2];
        simpl in *; try done.
      destruct Hsim as [Hexcs _].
      destruct (statusFlags span) as [[e f] t]. simpl.
      repeat split; [done|]. by constructor.
    + rewrite !makeCause_fallback_run by done. rewrite Hmap.
      destruct (statusFlags span) as [[e f] t].
      destruct (String.eqb _ _); simpl; unfold sameResult, withHeap; simpl;
        rewrite !mapAt_insert_eq; repeat split; constructor.
      split; [done|]. repeat constructor; simpl.
      exists 0%nat. by rewrite !Nat.add_0_r.
  - rewrite !makeCause_early_return by done. simpl.
    unfold sameResult; simpl. repeat split; [done|constructor].
Qed.

(** C9.  Two calls of [makeCause] on the same span, attribute map and
    resource, from any two states of the random source, of the heap and of
    the order of [range] loops, in which the attribute map has the same
    contents, both panic, alike, or both return: the same flags, attribute
    maps with the same contents, and causes that are both nil or hold
    records equal in number, order, types, messages and frames, whose
    identifiers and cause links are the same draws of the two random
    sources.  So it is for a second call that follows a first one. *)
Theorem makeCause_deterministic span attributes resource :
  (∀ w1 w2, fairRange w1 → fairRange w2 →
     mapAt w1 attributes = mapAt w2 attributes →
     bothRes (sameResult (gen w1) (gen w2))
       (makeCause span attributes resource w1)
       (makeCause span attributes resource w2))
  ∧ (∀ w r1 w1, fairRange w → attributes ∈ dom (heap w) →
       makeCause span attributes resource w = Ok (r1, w1) →
       ∃ r2 w2, makeCause span attributes resource w1 = Ok (r2, w2)
                ∧ sameResult (gen w) (gen w1) (r1, w1) (r2, w2)).
Proof.
  split; [apply makeCause_similar|].
  intros w r1 w1 Hfair Hdom Hrun.
  destruct (makeCause_keeps _ _ _ _ _ _ Hrun) as [Horder Hkeep].
  assert (fairRange w1) as Hfair1.
  { intros m. rewrite Horder. apply Hfair. }
  pose proof (makeCause_similar span attributes resource w w1 Hfair Hfair1
                (eq_sym (Hkeep attributes Hdom))) as Hsim.
  rewrite Hrun in Hsim.
  destruct (makeCause span attributes resource w1) as [[r2 w2]|e]; [|done].
  by exists r2, w2.
Qed.

Lemma makeCause_deterministic_witness :
  bothRes (sameResult (gen Sample.w0) (gen Sample.w1))
    (makeCause Sample.javaSpan 0%nat (Sample.resourceOf "java") Sample.w0)
    (makeCause Sample.javaSpan 0%nat (Sample.resourceOf "java") Sample.w1).
Proof.
  apply (proj1 (makeCause_deterministic Sample.javaSpan 0%nat
                  (Sample.resourceOf "java"))).
  - intros m. reflexivity.
  - intros m. apply reverse_Permutation.
  - by vm_compute.
Defined.

(** * More of the translator *)

(** ** Bytes, slices and searches *)

Lemma substring_length s : ∀ n m,
  String.length (String.substring n m s) = Nat.min m (String.length s - n).
Proof.
  induction s as [|c s IH]; intros [|n] [|m];
    cbn [String.substring String.length]; rewrite ?IH; lia.
Qed.

Lemma len_nonneg s : 0 <= len s.
Proof. unfold len. lia. Qed.

Lemma slice_inv s lo hi t :
  slice s lo hi = Ok t →
  0 <= lo ∧ lo <= hi ∧ hi <= len s
  ∧ t = String.substring (Z.to_nat lo) (Z.to_nat (hi - lo)) s.
Proof.
  unfold slice. destruct (_ && _) eqn:Hb; [|done]. intros [= <-].
  apply andb_true_iff in Hb as [Hb H3]. apply andb_true_iff in Hb as [H1 H2].
  repeat split; lia.
Qed.

Lemma slice_panics s lo hi e :
  slice s lo hi = Panic e →
  e = SliceBoundsOutOfRange ∧ (lo < 0 ∨ hi < lo ∨ len s < hi).
Proof.
  unfold slice. destruct (_ && _) eqn:Hb; [done|]. intros [= <-].
  split; [done|]. apply andb_false_iff in Hb as [Hb|Hb]; [|lia].
  apply andb_false_iff in Hb as [Hb|Hb]; lia.
Qed.

Lemma slice_len s lo hi t : slice s lo hi = Ok t → len t = hi - lo.
Proof.
  intros (H1 & H2 & H3 & ->)%slice_inv. unfold len in *.
  rewrite substring_length. lia.
Qed.

Lemma slice_get s lo hi t (j : nat) :
  slice s lo hi = Ok t → Z.of_nat j < hi - lo →
  String.get j t = String.get (j + Z.to_nat lo) s.
Proof.
  intros (H1 & H2 & H3 & ->)%slice_inv Hj.
  apply String.substring_correct1. lia.
Qed.

Lemma get_None_ge s : ∀ j : nat, (String.length s ≤ j)%nat → String.get j s = None.
Proof.
  induction s as [|a s IH]; intros j Hj; simpl in *; [done|].
  destruct j as [|j]; [lia|]. apply IH. lia.
Qed.

(** No byte before the index [IndexByte] returns is the byte looked for. *)
Lemma IndexByte_before s c : ∀ j : nat,
  IndexByte s c < 0 ∨ Z.of_nat j < IndexByte s c →
  String.get j s ≠ Some c.
Proof.
  induction s as [|a s IH]; intros j Hj; simpl in *; [done|].
  destruct (Ascii.eqb_spec a c) as [->|Hne]; [lia|].
  destruct j as [|j]; [congruence|].
  apply IH. destruct (Z.ltb_spec (IndexByte s c) 0); lia.
Qed.

Lemma LastIndexByte_range s c : -1 <= LastIndexByte s c < len s.
Proof.
  induction s as [|a s IH]; simpl.
  - unfold len; simpl. lia.
  - rewrite len_String. destruct (Z.leb_spec 0 (LastIndexByte s c)); [lia|].
    destruct (Ascii.eqb a c); lia.
Qed.

Lemma LastIndexByte_get s c :
  0 <= LastIndexByte s c →
  String.get (Z.to_nat (LastIndexByte s c)) s = Some c.
Proof.
  induction s as [|a s IH]; simpl; [lia|].
  destruct (Z.leb_spec 0 (LastIndexByte s c)) as [Hge|Hlt].
  - intros _.
    replace (Z.to_nat (LastIndexByte s c + 1))
      with (S (Z.to_nat (LastIndexByte s c))) by lia.
    by apply IH.
  - destruct (Ascii.eqb_spec a c) as [->|]; [done|lia].
Qed.

(** ** [indexOf] *)

Lemma indexOf_range str c pos :
  pos < len str →
  ∃ i, indexOf str c pos = Ok i ∧ (i = -1 ∨ (0 <= pos ∧ pos < i < len str)).
Proof.
  intros Hpos. unfold indexOf.
  destruct (Z.ltb_spec pos 0); [eexists; split; [done|by left]|].
  destruct (slice str (pos + 1) (len str)) as [rest|e] eqn:Hrest.
  - unfold sliceFrom. rewrite Hrest. cbn [mbind Res_bind].
    pose proof (IndexByte_range rest c) as Hr.
    pose proof (slice_len _ _ _ _ Hrest) as Hlen.
    destruct (Z.ltb_spec (-1) (IndexByte rest c)); eexists; (split; [done|]);
      [right; lia|by left].
  - apply slice_panics in Hrest. lia.
Qed.

(** X1.  [indexOf(str, c, pos)] returns -1 when [pos] is negative, without
    looking at [str]; it panics when [pos] is not an index of [str]; and
    for an index [pos] it returns the first index after [pos] that holds
    [c], or -1 when there is none.  The byte at [pos] itself is never
    looked at. *)
Theorem indexOf_first_after str c pos :
  (pos < 0 → indexOf str c pos = Ok (-1))
  ∧ (len str <= pos → indexOf str c pos = Panic SliceBoundsOutOfRange)
  ∧ (0 <= pos < len str →
     ∃ i, indexOf str c pos = Ok i
       ∧ ((i = -1 ∧ ∀ j : nat, pos < Z.of_nat j → String.get j str ≠ Some c)
          ∨ (pos < i < len str
             ∧ String.get (Z.to_nat i) str = Some c
             ∧ ∀ j : nat, pos < Z.of_nat j < i → String.get j str ≠ Some c))).
Proof.
  split; [|split].
  - intros Hneg. unfold indexOf. by destruct (Z.ltb_spec pos 0); [|lia].
  - intros Hbig. pose proof (len_nonneg str). unfold indexOf.
    destruct (Z.ltb_spec pos 0); [lia|].
    unfold sliceFrom, slice.
    replace ((0 <=? pos + 1) && (pos + 1 <=? len str) && (len str <=? len str))
      with false; [done|].
    symmetry. apply andb_false_iff. left. apply andb_false_iff. right. lia.
  - intros [Hlo Hhi]. unfold indexOf.
    destruct (Z.ltb_spec pos 0); [lia|].
    unfold sliceFrom. rewrite slice_ok by lia. cbn [mbind Res_bind].
    set (rest := String.substring _ _ str).
    assert (slice str (pos + 1) (len str) = Ok rest) as Hrest
      by (by rewrite slice_ok by lia).
    pose proof (IndexByte_range rest c) as Hr.
    pose proof (slice_len _ _ _ _ Hrest) as Hlen.
    assert (∀ j : nat, pos < Z.of_nat j → Z.of_nat j < len str →
              String.get j str
              = String.get (j - Z.to_nat (pos + 1)) rest) as Hget.
    { intros j Hj1 Hj2.
      rewrite (slice_get _ _ _ _ (j - Z.to_nat (pos + 1)) Hrest) by lia.
      f_equal. lia. }
    destruct (Z.ltb_spec (-1) (IndexByte rest c)) as [Hfound|Hnone];
      eexists; (split; [done|]).
    + right. split; [lia|]. split.
      * rewrite Hget by lia.
        replace (Z.to_nat (IndexByte rest c + pos + 1) - Z.to_nat (pos + 1))%nat
          with (Z.to_nat (IndexByte rest c)) by lia.
        apply IndexByte_get. lia.
      * intros j Hj. rewrite Hget by lia. apply IndexByte_before. lia.
    + left. split; [done|]. intros j Hj.
      destruct (Z.lt_ge_cases (Z.of_nat j) (len str)) as [Hin|Hout].
      * rewrite Hget by lia. apply IndexByte_before. lia.
      * rewrite get_None_ge; [done|]. unfold len in Hout. lia.
Qed.

Lemma indexOf_first_after_witness :
  ∃ i, indexOf "a:b:c" ":" 1 = Ok i
    ∧ ((i = -1 ∧ ∀ j : nat, 1 < Z.of_nat j → String.get j "a:b:c" ≠ Some ":"%char)
       ∨ (1 < i < len "a:b:c"
          ∧ String.get (Z.to_nat i) "a:b:c" = Some ":"%char
          ∧ ∀ j : nat, 1 < Z.of_nat j < i → String.get j "a:b:c" ≠ Some ":"%char)).
Proof.
  apply (proj2 (proj2 (indexOf_first_after "a:b:c" ":" 1))). by vm_compute.
Defined.

(** ** Parsers that cannot panic *)

Lemma closesParen_nonempty line parenIdx :
  0 < len line →
  ∃ b, closesParen line parenIdx = Ok b
    ∧ (b = true → 0 <= parenIdx
                  ∧ String.get (Z.to_nat (len line - 1)) line = Some ")"%char).
Proof.
  intros Hlen. unfold closesParen.
  destruct (Z.leb_spec 0 parenIdx); [|by eexists].
  destruct (byteAt_ok line (len line - 1)) as (c & -> & Hc); [lia..|].
  cbn [mbind Res_bind mret Res_ret]. eexists; split; [done|].
  intros ->%Ascii.eqb_eq. by split.
Qed.

Lemma withStack_same e : withStack e (Stack e) = e.
Proof. by destruct e. Qed.

Lemma addFrame_stack fr (e : Exception) rest :
  ∃ st, addFrame fr 0%nat (e :: rest) = withStack e (Stack e ++ st) :: rest
        ∧ (length st ≤ 1)%nat.
Proof.
  destruct fr as [f|]; simpl.
  - exists [f]. by split.
  - exists []. rewrite app_nil_r, withStack_same. split; [done|simpl; lia].
Qed.

Lemma withStack_app e st1 st2 :
  withStack (withStack e (Stack e ++ st1)) (Stack (withStack e (Stack e ++ st1)) ++ st2)
  = withStack e (Stack e ++ st1 ++ st2).
Proof. unfold withStack; simpl. by rewrite app_assoc. Qed.

(** The frame branch of the JavaScript parser never panics. *)
Lemma javaScriptFrame_total line :
  HasPrefix line "    at " = true → ∃ fr, javaScriptFrame line = Ok fr.
Proof.
  intros Hp. unfold javaScriptFrame.
  pose proof (IndexByte_range line "(") as Hrange.
  assert (7 <= len line ∧ (0 <= IndexByte line "(" → 7 <= IndexByte line "("))
    as [Hlen Hseven].
  { destruct (prefix_split _ _ Hp) as [rest ->].
    change ("    at " +:+ rest)
      with (String " " (String " " (String " " (String " "
             (String "a" (String "t" (String " " rest))))))) in *.
    split; [rewrite !len_String; pose proof (len_nonneg rest); lia|].
    intros H0.
    apply IndexByte_skip in H0 as [H1 ->]; [|done].
    apply IndexByte_skip in H1 as [H2 ->]; [|done].
    apply IndexByte_skip in H2 as [H3 ->]; [|done].
    apply IndexByte_skip in H3 as [H4 ->]; [|done].
    apply IndexByte_skip in H4 as [H5 ->]; [|done].
    apply IndexByte_skip in H5 as [H6 ->]; [|done].
    apply IndexByte_skip in H6 as [H7 ->]; [|done]. lia. }
  destruct (closesParen_nonempty line (IndexByte line "(")) as (ok & -> & Hok);
    [lia|].
  cbn [mbind Res_bind].
  assert (∃ label path,
            (if ok
             then label ← slice line 7 (IndexByte line "(");
                  path ← slice line (IndexByte line "(" + 1) (len line - 1);
                  mret (label, path)
             else if IndexByte line "(" <? 0
                  then path ← sliceFrom line 7; mret (EmptyString, path)
                  else mret (EmptyString, EmptyString))
            = Ok (label, path)) as (label & path & ->).
  { destruct ok.
    - destruct (Hok eq_refl) as [Hparen Hlast].
      pose proof (IndexByte_get line "(" Hparen) as Hopen.
      assert (IndexByte line "(" ≠ len line - 1) as Hne.
      { intros Heq. rewrite Heq in Hopen. congruence. }
      rewrite (slice_ok line 7), (slice_ok line (IndexByte line "(" + 1))
        by lia.
      by eexists _, _.
    - destruct (IndexByte line "(" <? 0); [|by eexists _, _].
      rewrite sliceFrom_ok by lia. by eexists _, _. }
  cbn [mbind Res_bind]. cbv zeta.
  pose proof (IndexByte_range path ":") as Hcolon.
  destruct (indexOf_range path ":" (IndexByte path ":")) as (second & -> & Hsecond);
    [lia|].
  cbn [mbind Res_bind].
  assert (∃ path' lineIdx,
            (if (0 <=? IndexByte path ":") && (0 <=? second)
                && negb (IndexByte path ":" =? second)
             then lineStr ← slice path (IndexByte path ":" + 1) second;
                  path0 ← slice path 0 (IndexByte path ":");
                  mret (path0, (Atoi lineStr).1)
             else if (IndexByte path ":" <? 0) && Contains path "native"
                  then mret ("native", 0)
                  else mret (path, 0))
            = Ok (path', lineIdx)) as (path' & lineIdx & ->).
  { destruct (_ && _ && _) eqn:Hcond.
    - apply andb_true_iff in Hcond as [Hcond _].
      apply andb_true_iff in Hcond as [H1%Z.leb_le H2%Z.leb_le].
      rewrite !slice_ok by lia. by eexists _, _.
    - clear Hcond.
      destruct ((IndexByte path ":" <? 0) && Contains path "native");
        by eexists _, _. }
  cbn [mbind Res_bind]. destruct (_ || _); by eexists.
Qed.

(** The loop of the JavaScript parser only adds frames to the first
    record. *)
Lemma javaScriptLoop_frames r : ∀ line e rest,
  ∃ st, javaScriptLoop line r (e :: rest)
        = Ok (withStack e (Stack e ++ st) :: rest).
Proof.
  induction r as [|line' r IH]; intros line e rest; cbn [javaScriptLoop];
    destruct (HasPrefix line "    at ") eqn:Hp.
  - destruct (javaScriptFrame_total line Hp) as [fr ->].
    cbn [mbind Res_bind mret Res_ret].
    destruct (addFrame_stack fr e rest) as (st & -> & _). by exists st.
  - exists []. cbn [mbind Res_bind mret Res_ret].
    by rewrite app_nil_r, withStack_same.
  - destruct (javaScriptFrame_total line Hp) as [fr ->].
    cbn [mbind Res_bind mret Res_ret].
    destruct (addFrame_stack fr e rest) as (st & -> & _).
    destruct (IH line' (withStack e (Stack e ++ st)) rest) as [st' ->].
    exists (st ++ st'). by rewrite withStack_app.
  - cbn [mbind Res_bind mret Res_ret]. apply IH.
Qed.

Lemma fillJavaScriptStacktrace_frames stacktrace e rest :
  ∃ st, fillJavaScriptStacktrace stacktrace (e :: rest)
        = Ok (withStack e st :: rest).
Proof.
  unfold fillJavaScriptStacktrace.
  destruct (ReadLine (NewReader stacktrace)) as [[_ r] _].
  destruct (ReadLine r) as [[line r'] ok]. destruct ok.
  - cbn [alter list_alter].
    destruct (javaScriptLoop_frames r' line (withStack e []) rest) as [st ->].
    by exists st.
  - exists (Stack e). by rewrite withStack_same.
Qed.

(** The loop of the Go parser adds frames to the first record, at least
    one, and one for every two lines when no line is a header line. *)
Lemma goLoop_frames r : ∀ line path lineNumber e rest,
  ∃ st, goLoop line r path lineNumber (e :: rest)
        = withStack e (Stack e ++ st) :: rest
        ∧ (1 ≤ length st)%nat
        ∧ (Forall (λ l, reMatch l = false) (line :: r) →
           length st = ((length r + 2) / 2)%nat).
Proof.
  induction r as [r IH] using (induction_ltof1 _ length). unfold ltof in IH.
  intros line path n e rest. rewrite goLoop_eq. cbv zeta.
  assert (∀ label r', (length r' ≤ length r)%nat →
    ∃ st,
      match r' with
      | [] =>
          let '(path, lineNumber) := goPathLine EmptyString path n in
          addFrame (Some (mkStackFrame path label lineNumber)) 0%nat (e :: rest)
      | line :: r =>
          let '(path, lineNumber) := goPathLine line path n in
          let exceptions :=
            addFrame (Some (mkStackFrame path label lineNumber)) 0%nat (e :: rest) in
          match r with
          | [] => exceptions
          | line :: r => goLoop line r path lineNumber exceptions
          end
      end = withStack e (Stack e ++ st) :: rest
      ∧ (1 ≤ length st)%nat
      ∧ (Forall (λ l, reMatch l = false) r' →
         length st = ((length r' + 2) / 2)%nat)) as Hturn.
  { intros label r' Hlen. destruct r' as [|next r''].
    - destruct (goPathLine _ _ _) as [p k]. eexists [_]. by repeat split.
    - destruct (goPathLine _ _ _) as [p k]. cbv zeta.
      destruct r'' as [|line' r'''].
      + eexists [_]. by repeat split.
      + cbn [addFrame alter list_alter].
        destruct (IH r''' ltac:(simpl in *; lia) line' p k
                    (appendFrame e (mkStackFrame p label k)) rest)
          as (st & -> & Hone & Hcount).
        exists (mkStackFrame p label k :: st). split; [|split].
        * unfold appendFrame. by rewrite withStack_app.
        * simpl. lia.
        * intros Hno. apply Forall_cons in Hno as [_ Hno].
          cbn [length]. rewrite (Hcount Hno).
          replace (S (S (length r''')) + 2)%nat
            with (length r''' + 2 + 1 * 2)%nat by lia.
          rewrite Nat.div_add by lia. lia. }
  destruct (reMatch line) eqn:Hre.
  - destruct r as [|label r'].
    + destruct (Hturn EmptyString [] ltac:(done)) as (st & Heq & Hone & _).
      exists st. repeat split; [done..|].
      intros Hno. apply Forall_cons in Hno as [Hno _]. congruence.
    + destruct (Hturn label r' ltac:(simpl; lia)) as (st & Heq & Hone & _).
      exists st. repeat split; [done..|].
      intros Hno. apply Forall_cons in Hno as [Hno _]. congruence.
  - destruct (Hturn line r ltac:(done)) as (st & Heq & Hone & Hcount).
    exists st. repeat split; [done..|].
    intros Hno. apply Forall_cons in Hno as [_ Hno]. by apply Hcount.
Qed.

(** The frames of a Java trace without a cause line. *)
Lemma javaLoop_frames r : ∀ line e rest g,
  Forall noCause (line :: r) →
  javaLoop line r (e :: rest) 0%nat g
  = Ok (withStack e (Stack e ++ omap javaLineFrame (line :: r)) :: rest, g).
Proof.
  assert (∀ line, noCause line →
            ∃ fr, (if HasPrefix line tabAt then javaFrame line else Ok None)
                  = Ok fr
                  ∧ javaLineFrame line = fr) as Hline.
  { intros line Hno. unfold javaLineFrame.
    destruct (HasPrefix line tabAt) eqn:Hp; [|by eexists].
    destruct (javaFrame_total line Hp) as [fr ->]. by eexists. }
  induction r as [|line' r IH]; intros line e rest g Hall;
    apply Forall_cons in Hall as [Hno Hall];
    destruct (Hline line Hno) as (fr & Hfr & Hlf);
    rewrite javaLoop_eq, Hno; cbn [omap list_omap]; rewrite Hlf;
    destruct (HasPrefix line tabAt) eqn:Hp.
  - rewrite G_bind_lift, Hfr. cbv zeta. unfold mret, G_ret. do 2 f_equal.
    destruct fr as [f|]; simpl; [done|]. by rewrite app_nil_r, withStack_same.
  - injection Hfr as <-. unfold mret, G_ret. do 2 f_equal.
    by rewrite app_nil_r, withStack_same.
  - rewrite G_bind_lift, Hfr. cbv zeta.
    destruct fr as [f|]; cbn [addFrame alter list_alter].
    + unfold appendFrame. rewrite (IH line' _ rest g Hall).
      do 2 f_equal. f_equal. by rewrite withStack_app.
    + by rewrite (IH line' e rest g Hall).
  - injection Hfr as <-. by rewrite (IH line' e rest g Hall).
Qed.

(** X2.  For every language but java, php, python and dotnet,
    [parseException] returns, whatever the stack trace: exactly one record,
    with the identifier drawn, the type and the message given and no cause;
    it has frames for the languages javascript and go only. *)
Theorem parseException_single_record
    exceptionType message stacktrace language g :
  language ≠ "java" → language ≠ "php" →
  language ≠ "python" → language ≠ "dotnet" →
  ∃ frames,
    parseException exceptionType message stacktrace language g
    = Ok ([mkException (nextID g) exceptionType message frames None], nextGen g)
    ∧ (stacktrace = EmptyString
       ∨ (language ≠ "javascript" ∧ language ≠ "go") → frames = []).
Proof.
  intros Hjava Hphp Hpython Hdotnet.
  unfold parseException. rewrite G_bind_newID. cbv zeta.
  set (e0 := mkException (nextID g) exceptionType message [] None).
  destruct (String.eqb_spec stacktrace EmptyString) as [->|Hst];
    [by exists []|].
  destruct (String.eqb_spec language "java"); [done|].
  destruct (String.eqb_spec language "python"); [done|].
  destruct (String.eqb_spec language "javascript") as [->|Hjs].
  { destruct (fillJavaScriptStacktrace_frames stacktrace e0 []) as [st ->].
    exists st. split; [done|]. intros [?|[? _]]; done. }
  destruct (String.eqb_spec language "dotnet"); [done|].
  destruct (String.eqb_spec language "php"); [done|].
  destruct (String.eqb_spec language "go") as [->|Hgo].
  { unfold fillGoStacktrace.
    destruct (ReadLine (NewReader stacktrace)) as [[_ r] _].
    destruct (ReadLine r) as [[line r'] ok]. destruct ok.
    - cbn [alter list_alter].
      destruct (goLoop_frames r' line EmptyString 0 (withStack e0 []) [])
        as (st & -> & _).
      exists st. split; [done|]. intros [?|[_ ?]]; done.
    - exists []. split; [done|]. done. }
  by exists [].
Qed.

Lemma parseException_single_record_witness :
  ∃ frames,
    parseException "T" "m" Sample.goTrace "go" Sample.g0
    = Ok ([mkException "0" "T" "m" frames None], nextGen Sample.g0).
Proof.
  destruct (parseException_single_record "T" "m" Sample.goTrace "go" Sample.g0)
    as (frames & Hrun & _); [discriminate..|].
  by exists frames.
Defined.

(** X3.  Once a Go trace has a second line, [fillGoStacktrace] gives the
    first record at least one frame, also when that line is the goroutine
    header alone; and when no line after the first is a header line, it
    gives one frame for every two lines, a last single line included. *)
Theorem fillGoStacktrace_frame_count stacktrace first line r e rest :
  NewReader stacktrace = first :: line :: r →
  ∃ frames,
    fillGoStacktrace stacktrace (e :: rest) = Ok (withStack e frames :: rest)
    ∧ (1 ≤ length frames)%nat
    ∧ (Forall (λ l, reMatch l = false) (line :: r) →
       length frames = ((length r + 2) / 2)%nat).
Proof.
  intros Hlines. unfold fillGoStacktrace. rewrite Hlines.
  cbn [ReadLine alter list_alter].
  destruct (goLoop_frames r line EmptyString 0 (withStack e []) rest)
    as (st & -> & Hone & Hcount).
  by exists st.
Qed.

Lemma fillGoStacktrace_frame_count_witness :
  ∃ frames,
    fillGoStacktrace ("E" +:+ Sample.nl +:+ "goroutine 1 [running]:")
      [Sample.e0]
    = Ok [withStack Sample.e0 frames]
    ∧ (1 ≤ length frames)%nat.
Proof.
  destruct (fillGoStacktrace_frame_count
              ("E" +:+ Sample.nl +:+ "goroutine 1 [running]:")
              "E" "goroutine 1 [running]:" [] Sample.e0 [] eq_refl)
    as (frames & Hrun & Hone & _).
  by exists frames.
Defined.

(** X4.  A Java trace in which no line after the first starts with
    "Caused by: " is parsed without a panic and without a draw beyond the
    first: the one record has the frames of the lines that start with a
    tab and "at ", hold a parenthesis and end in one, in the order of the
    lines; every other line is passed over. *)
Theorem parseException_java_frames exceptionType message stacktrace g :
  Forall noCause (tail (NewReader stacktrace)) →
  parseException exceptionType message stacktrace "java" g
  = Ok ([mkException (nextID g) exceptionType message
           (omap javaLineFrame (tail (NewReader stacktrace))) None],
        nextGen g).
Proof.
  intros Hno.
  unfold parseException. rewrite G_bind_newID. cbv zeta.
  destruct (String.eqb_spec stacktrace EmptyString) as [->|Hst]; [done|].
  cbn [String.eqb Ascii.eqb Bool.eqb]. cbv iota.
  unfold fillJavaStacktrace.
  destruct (NewReader stacktrace) as [|first [|line r]]; cbn [ReadLine tail] in *.
  - done.
  - done.
  - cbn [alter list_alter]. by rewrite javaLoop_frames.
Qed.

Lemma parseException_java_frames_witness :
  parseException "T" "m"
    ("E" +:+ Sample.nl +:+ tabAt +:+ "a.b/c.d(F.java:7)" +:+ Sample.nl
     +:+ String tab "... 3 more") "java" Sample.g0
  = Ok ([mkException "0" "T" "m" [mkStackFrame "F.java" "c.d" 7] None],
        nextGen Sample.g0).
Proof.
  refine (parseException_java_frames "T" "m" _ Sample.g0 _).
  repeat constructor.
Defined.

(** ** The cut of a cause line *)

Lemma substring_all s : String.substring 0 (String.length s) s = s.
Proof. induction s as [|c s IH]; simpl; [done|by rewrite IH]. Qed.

Lemma append_String c s t : String c s +:+ t = String c (s +:+ t).
Proof. reflexivity. Qed.

Lemma substring_split s : ∀ n, (n ≤ String.length s)%nat →
  s = String.substring 0 n s +:+ String.substring n (String.length s - n) s.
Proof.
  induction s as [|c s IH]; intros [|n] Hn; simpl in *; try done; try lia.
  - by rewrite substring_all.
  - rewrite append_String. f_equal. apply IH. lia.
Qed.

Lemma substring_cons s : ∀ n c, String.get n s = Some c →
  String.substring n (String.length s - n) s
  = String c (String.substring (S n) (String.length s - S n) s).
Proof.
  induction s as [|a s IH]; intros [|n] c Hget; simpl in *; try done.
  - injection Hget as ->. f_equal.
    destruct s; simpl; [done|]. by rewrite substring_all.
  - by apply IH.
Qed.

Lemma IndexByte_absent s c :
  (∀ j : nat, String.get j s ≠ Some c) → IndexByte s c < 0.
Proof.
  intros Hno. destruct (Z.lt_ge_cases (IndexByte s c) 0) as [|Hge]; [done|].
  apply IndexByte_get in Hge. by apply Hno in Hge.
Qed.

(** The text before the first [c] holds no [c]. *)
Lemma IndexByte_prefix s c :
  0 <= IndexByte s c →
  IndexByte (String.substring 0 (Z.to_nat (IndexByte s c)) s) c < 0.
Proof.
  intros Hge. apply IndexByte_absent. intros j.
  destruct (Nat.lt_ge_cases j (Z.to_nat (IndexByte s c))) as [Hlt|Hout].
  - rewrite String.substring_correct1 by done. rewrite Nat.add_0_r.
    apply IndexByte_before. lia.
  - by rewrite String.substring_correct2.
Qed.

Lemma slice_out s lo hi :
  lo < 0 ∨ hi < lo ∨ len s < hi → slice s lo hi = Panic SliceBoundsOutOfRange.
Proof.
  intros Hout. unfold slice.
  replace ((0 <=? lo) && (lo <=? hi) && (hi <=? len s)) with false; [done|].
  symmetry. rewrite !andb_false_iff. lia.
Qed.

Lemma sliceFrom_out s lo :
  len s < lo → sliceFrom s lo = Panic SliceBoundsOutOfRange.
Proof. intros. apply slice_out. lia. Qed.

Lemma substring_none s : ∀ n, String.substring n 0 s = EmptyString.
Proof. induction s as [|a s IH]; intros [|n]; simpl; done. Qed.

Lemma append_empty s : EmptyString +:+ s = s.
Proof. reflexivity. Qed.

Lemma substring_after p r :
  String.substring (String.length p)
    (String.length (p +:+ r) - String.length p) (p +:+ r) = r.
Proof.
  induction p as [|c p IH].
  - rewrite append_empty. cbn [String.length]. rewrite Nat.sub_0_r.
    apply substring_all.
  - rewrite append_String. cbn [String.length String.substring Nat.sub].
    exact IH.
Qed.

Lemma sliceFrom_after p r : sliceFrom (p +:+ r) (len p) = Ok r.
Proof.
  assert (String.length p ≤ String.length (p +:+ r))%nat as Hlen.
  { induction p as [|c p IH]; [simpl; lia|].
    rewrite append_String. simpl. lia. }
  rewrite sliceFrom_ok by (unfold len; lia). f_equal.
  unfold len. rewrite Nat2Z.id.
  replace (Z.to_nat (Z.of_nat (String.length (p +:+ r)) - Z.of_nat (String.length p)))
    with (String.length (p +:+ r) - String.length p)%nat by lia.
  apply substring_after.
Qed.

(** X5.  What the Java parser cuts out of a line "Caused by: " followed by
    [rest]: the whole of [rest] as the type when it holds no colon;
    otherwise the text before the first colon as the type and the text
    from the second byte after that colon as the message, the byte in
    between being dropped whatever it is.  It panics only when the first
    colon is the last byte of the line, and then on the slice bounds. *)
Theorem javaCauseHead_cut rest :
  match javaCauseHead (causedBy +:+ rest) with
  | Ok (causeType, causeMessage) =>
      (IndexByte rest ":" < 0 ∧ causeType = rest ∧ causeMessage = EmptyString)
      ∨ (IndexByte causeType ":" < 0
         ∧ ∃ c, rest = causeType +:+ String ":" (String c causeMessage))
  | Panic e =>
      e = SliceBoundsOutOfRange
      ∧ ∃ causeType, IndexByte causeType ":" < 0 ∧ rest = causeType +:+ ":"
  end.
Proof.
  unfold javaCauseHead. rewrite sliceFrom_after. cbn [mbind Res_bind].
  pose proof (IndexByte_range rest ":") as Hrange.
  destruct (Z.leb_spec 0 (IndexByte rest ":")) as [Hge|Hlt]; [|left; by auto].
  set (i := Z.to_nat (IndexByte rest ":")).
  pose proof (IndexByte_get rest ":" Hge) as Hcolon. fold i in Hcolon.
  assert (i < String.length rest)%nat as Hi by (unfold len in Hrange; lia).
  pose proof (substring_split rest i ltac:(lia)) as Hsplit.
  rewrite (substring_cons rest i _ Hcolon) in Hsplit.
  pose proof (IndexByte_prefix rest ":" Hge) as Hfree. fold i in Hfree.
  destruct (Z.lt_ge_cases (IndexByte rest ":" + 2) (len rest + 1))
    as [Hfits|Hcut].
  - rewrite sliceFrom_ok, slice_ok by lia. cbn [mbind Res_bind mret Res_ret].
    right. replace (Z.to_nat (IndexByte rest ":" - 0)) with i by lia.
    replace (Z.to_nat 0) with 0%nat by lia.
    split; [done|].
    destruct (get_Some_lt rest (S i)) as [c Hc]; [unfold len in Hfits; lia|].
    exists c. rewrite (substring_cons rest (S i) c Hc) in Hsplit.
    replace (Z.to_nat (IndexByte rest ":" + 2)) with (S (S i)) by lia.
    replace (Z.to_nat (len rest - (IndexByte rest ":" + 2)))
      with (String.length rest - S (S i))%nat by (unfold len; lia).
    exact Hsplit.
  - rewrite (sliceFrom_out rest) by lia.
    cbn [mbind Res_bind]. split; [done|].
    exists (String.substring 0 i rest). split; [done|].
    replace (String.length rest - S i)%nat with 0%nat in Hsplit
      by (unfold len in Hcut; lia).
    by rewrite substring_none in Hsplit.
Qed.

(** ** The chain of records *)

Lemma keeps_refl l : keeps l l.
Proof. intros i e He. by exists e. Qed.

Lemma keeps_trans l1 l2 l3 : keeps l1 l2 → keeps l2 l3 → keeps l1 l3.
Proof.
  intros H12 H23 i e He.
  destruct (H12 i e He) as (e2 & He2 & Ht2 & Hm2).
  destruct (H23 i e2 He2) as (e3 & He3 & Ht3 & Hm3).
  exists e3. repeat split; congruence.
Qed.

Lemma keeps_alter (f : Exception → Exception) i l :
  (∀ e, Type_ (f e) = Type_ e ∧ Message (f e) = Message e) →
  keeps l (alter f i l).
Proof.
  intros Hf j e He. destruct (decide (i = j)) as [->|Hne].
  - exists (f e). rewrite list_lookup_alter_eq, He. split; [done|apply Hf].
  - exists e. by rewrite list_lookup_alter_ne by done.
Qed.

Lemma keeps_addFrame fr i l : keeps l (addFrame fr i l).
Proof.
  destruct fr as [f|]; [|apply keeps_refl]. by apply keeps_alter.
Qed.

Lemma chained_alter g (f : Exception → Exception) i l :
  (∀ e, ID (f e) = ID e ∧ Cause (f e) = Cause e) →
  chained g l → chained g (alter f i l).
Proof.
  intros Hf Hc j e He. rewrite length_alter.
  destruct (decide (i = j)) as [->|Hne].
  - rewrite list_lookup_alter_eq in He.
    destruct (l !! j) as [e0|] eqn:He0; [|done]. injection He as <-.
    destruct (Hf e0) as [-> ->]. by apply Hc.
  - rewrite list_lookup_alter_ne in He by done. by apply Hc.
Qed.

Lemma chained_addFrame g fr i l : chained g l → chained g (addFrame fr i l).
Proof.
  destruct fr as [f|]; [|done]. by apply chained_alter.
Qed.

(** What [appendCause] makes of a list with a last record. *)
Lemma linkCause_last l e causeType causeMessage id :
  linkCause (l ++ [e]) (length (l ++ [e]) - 1)%nat causeType causeMessage id
  = l ++ [withCause e id; mkException id causeType causeMessage [] None].
Proof.
  unfold linkCause. rewrite !length_app. cbn [length].
  replace (length l + 1 + 1 - 2)%nat with (length l + 0)%nat by lia.
  replace (length l + 1 - 1)%nat with (length l + 0)%nat by lia.
  rewrite <-(app_assoc l [e]). cbn [app].
  by rewrite !alter_app_r.
Qed.

Lemma chained_linkCause g l causeType causeMessage :
  l ≠ [] → chained g l →
  chained g (linkCause l (length l - 1)%nat causeType causeMessage
               (idSource g (idCount g + length l)%nat)).
Proof.
  intros Hne Hc. destruct l as [|e l0 _] using rev_ind; [done|].
  rewrite linkCause_last. intros i x Hx.
  rewrite length_app in *. cbn [length] in *.
  destruct (Nat.lt_ge_cases i (length l0)) as [Hlt|Hge].
  - rewrite lookup_app_l in Hx by done.
    destruct (Hc i x) as [Hid Hcause]; [by rewrite lookup_app_l|].
    split; [done|]. rewrite Hcause, !length_app. cbn [length].
    repeat case_decide; try done; lia.
  - rewrite lookup_app_r in Hx by done.
    destruct (Hc (length l0) e) as [Hid _].
    { by rewrite lookup_app_r, Nat.sub_diag by lia. }
    destruct (i - length l0)%nat as [|[|k]] eqn:Hi; simpl in Hx; [| |done];
      injection Hx as <-; simpl.
    + replace i with (length l0) by lia. split; [done|].
      destruct (decide _); [|lia]. do 2 f_equal. lia.
    + replace i with (length l0 + 1)%nat by lia. split; [done|].
      destruct (decide _); [lia|done].
Qed.

Lemma keeps_linkCause l exception causeType causeMessage id :
  keeps l (linkCause l exception causeType causeMessage id).
Proof.
  unfold linkCause.
  eapply keeps_trans; [|by apply keeps_alter].
  eapply keeps_trans; [|by apply keeps_alter].
  intros i e He. exists e. by rewrite lookup_app_l by by eapply lookup_lt_Some.
Qed.

Lemma linkCause_length l exception causeType causeMessage id :
  length (linkCause l exception causeType causeMessage id) = S (length l).
Proof. unfold linkCause. rewrite !length_alter, length_app. simpl. lia. Qed.

Lemma drawn_next g n g' : drawn g n g' → drawn g (S n) (nextGen g').
Proof. intros [Hs Hc]. split; simpl; [done|lia]. Qed.

Lemma drawn_nextID g n g' :
  drawn g n g' → nextID g' = idSource g (idCount g + n)%nat.
Proof. intros [Hs Hc]. unfold nextID. by rewrite Hs, Hc. Qed.

Lemma wellChained_addFrame g fr i l g' :
  wellChained g l g' → wellChained g (addFrame fr i l) g'.
Proof.
  intros (Hne & Hc & Hd). split; [|split].
  - destruct fr; [|done]. simpl. by destruct l, i.
  - by apply chained_addFrame.
  - destruct fr; [|done]. simpl. by rewrite length_alter.
Qed.

Lemma wellChained_appendCause g l g' causeType causeMessage r g'' :
  wellChained g l g' →
  appendCause l (length l - 1)%nat causeType causeMessage g' = Ok (r, g'') →
  wellChained g r.1 g'' ∧ keeps l r.1 ∧ r.2 = (length r.1 - 1)%nat.
Proof.
  intros (Hne & Hc & Hd). rewrite appendCause_run. intros [= <- <-]. simpl.
  rewrite (drawn_nextID _ _ _ Hd), linkCause_length.
  split; [split; [|split]|split].
  - intros Heq. apply (f_equal length) in Heq.
    by rewrite linkCause_length in Heq.
  - by apply chained_linkCause.
  - rewrite linkCause_length. by apply drawn_next.
  - apply keeps_linkCause.
  - rewrite ?linkCause_length. lia.
Qed.

(** ** What the parsers keep of the chain *)

Lemma whenReturns_Ok {A S} (m : Res (A * S)) (Q : A → S → Prop) a s :
  whenReturns m Q → m = Ok (a, s) → Q a s.
Proof. by intros H ->. Qed.

Lemma whenReturns_mono {A S} (m : Res (A * S)) (Q Q' : A → S → Prop) :
  whenReturns m Q → (∀ a s, Q a s → Q' a s) → whenReturns m Q'.
Proof. destruct m as [[a s]|]; simpl; auto. Qed.

Lemma whenReturns_lift {A B} (r : Res A) (k : A → G B) g Q :
  (∀ a, r = Ok a → whenReturns (k a g) Q) →
  whenReturns ((lift r ≫= k) g) Q.
Proof. intros H. rewrite G_bind_lift. destruct r; [by apply H|done]. Qed.

Lemma whenReturns_appendCause {B} g l g1 causeType causeMessage
    (k : list Exception * nat → G B) Q :
  wellChained g l g1 →
  (∀ l' g1', wellChained g l' g1' → keeps l l' →
     whenReturns (k (l', (length l' - 1)%nat) g1') Q) →
  whenReturns ((appendCause l (length l - 1)%nat causeType causeMessage ≫= k) g1) Q.
Proof.
  intros Hl Hk. unfold mbind, G_bind.
  destruct (appendCause l (length l - 1)%nat causeType causeMessage g1)
    as [[r g1']|] eqn:Hrun; [|done].
  destruct (wellChained_appendCause _ _ _ _ _ _ _ Hl Hrun) as (Hr & Hkeep & Hidx).
  destruct r as [l' n]. simpl in *. subst n. by apply Hk.
Qed.

Lemma addFrame_length fr i l : length (addFrame fr i l) = length l.
Proof. destruct fr; [apply length_alter|done]. Qed.

(** *** The Java parser *)

Lemma chain_javaPeek g causeType r :
  (∀ line r' l exception g1,
     (length r' < length r)%nat →
     wellChained g l g1 → exception = (length l - 1)%nat →
     whenReturns (javaLoop line r' l exception g1)
       (λ res g2, wellChained g res g2 ∧ keeps l res)) →
  ∀ causeMessage l g1,
    wellChained g l g1 →
    whenReturns (javaPeek javaLoop l (length l - 1)%nat causeType r causeMessage g1)
      (λ res g2, wellChained g res g2 ∧ keeps l res).
Proof.
  induction r as [|line r IH]; intros Hloop msg l g1 Hl; cbn [javaPeek].
  - eapply whenReturns_appendCause; [done|]. intros l' g1' Hl' Hk. by simpl.
  - apply whenReturns_lift. intros stop _. destruct stop.
    + eapply whenReturns_appendCause; [done|]. intros l' g1' Hl' Hk.
      cbv beta iota.
      eapply whenReturns_mono; [apply Hloop; [simpl; lia|done..]|].
      intros res g2 [Hres Hk']. split; [done|]. by eapply keeps_trans.
    + apply IH; [|done]. intros. apply Hloop; [simpl; lia|done..].
Qed.

Lemma chain_javaLoop g r : ∀ line l exception g1,
  wellChained g l g1 → exception = (length l - 1)%nat →
  whenReturns (javaLoop line r l exception g1)
    (λ res g2, wellChained g res g2 ∧ keeps l res).
Proof.
  induction r as [r IH] using (induction_ltof1 _ length).
  unfold ltof in IH.
  intros line l cur g1 Hl ->. rewrite javaLoop_eq.
  assert (whenReturns
            (match r return G (list Exception) with
             | [] => mret l
             | line :: r => javaLoop line r l (length l - 1)%nat
             end g1)
            (λ res g2, wellChained g res g2 ∧ keeps l res)) as Hskip.
  { destruct r as [|line' r']; [split; [done|apply keeps_refl]|].
    apply IH; [simpl; lia|done..]. }
  destruct (HasPrefix line tabAt).
  - apply whenReturns_lift. intros fr _. cbv zeta.
    destruct r as [|line' r'].
    + split; [by apply wellChained_addFrame|apply keeps_addFrame].
    + eapply whenReturns_mono.
      * apply IH; [simpl; lia|by apply wellChained_addFrame|].
        by rewrite addFrame_length.
      * intros res g2 [Hres Hk]. split; [done|].
        eapply keeps_trans; [apply keeps_addFrame|done].
  - destruct (HasPrefix line causedBy); [|done].
    apply whenReturns_lift. intros [ty msg] _.
    apply chain_javaPeek; [|done]. intros. by apply IH.
Qed.

(** *** The Python parser *)

Lemma chain_pythonSearch g lines lineIdx bound :
  (∀ k l exception g1,
     (k ≤ bound)%nat → wellChained g l g1 → exception = (length l - 1)%nat →
     whenReturns (pythonLoop lines k l exception g1)
       (λ res g2, wellChained g res g2 ∧ keeps l res)) →
  ∀ k l g1,
    (k ≤ bound)%nat → wellChained g l g1 →
    whenReturns
      (pythonSearch (pythonLoop lines) lines lineIdx l (length l - 1)%nat k g1)
      (λ res g2, wellChained g res g2 ∧ keeps l res).
Proof.
  intros Hloop. induction k as [|nextFileLineIdx IH]; intros l g1 Hk Hl;
    cbn [pythonSearch].
  - split; [done|apply keeps_refl].
  - apply whenReturns_lift. intros line _.
    destruct (HasPrefix line fileMark); [|apply IH; [lia|done]].
    apply whenReturns_lift. intros between _. cbv zeta.
    destruct (_ <? 0); [split; [done|apply keeps_refl]|].
    apply whenReturns_lift. intros causeType _.
    apply whenReturns_lift. intros causeMessage _.
    eapply whenReturns_appendCause; [done|]. intros l' g1' Hl' Hk'.
    cbv beta iota.
    eapply whenReturns_mono; [by apply Hloop|].
    intros res g2 [Hres Hk'']. split; [done|]. by eapply keeps_trans.
Qed.

Lemma chain_pythonLoop g lines n : ∀ l exception g1,
  wellChained g l g1 → exception = (length l - 1)%nat →
  whenReturns (pythonLoop lines n l exception g1)
    (λ res g2, wellChained g res g2 ∧ keeps l res).
Proof.
  induction n as [n IH] using lt_wf_ind.
  intros l cur g1 Hl ->. destruct n as [|lineIdx]; cbn [pythonLoop].
  - split; [done|apply keeps_refl].
  - apply whenReturns_lift. intros line _.
    destruct (HasPrefix line fileMark).
    + apply whenReturns_lift. intros fr _.
      eapply whenReturns_mono.
      * apply IH; [lia|by apply wellChained_addFrame|].
        by rewrite addFrame_length.
      * intros res g2 [Hres Hk]. split; [done|].
        eapply keeps_trans; [apply keeps_addFrame|done].
    + destruct (HasPrefix line duringHandling); [|by apply IH; [lia|..]].
      apply (chain_pythonSearch g lines lineIdx lineIdx); [|done..].
      intros. apply IH; [lia|done..].
Qed.

(** *** The parsers that draw no identifier *)

(** On a run that returns, the loop of the .NET parser has added frames
    to the first record and done nothing else. *)
Lemma dotnetLoop_frames r : ∀ line e rest res,
  dotnetLoop line r (e :: rest) = Ok res →
  ∃ st, res = withStack e (Stack e ++ st) :: rest.
Proof.
  induction r as [|line' r IH]; intros line e rest res; cbn [dotnetLoop];
    destruct (HasPrefix line tabAt).
  - destruct (dotnetFrame line) as [fr|]; [|done].
    cbn [mbind Res_bind mret Res_ret].
    destruct (addFrame_stack fr e rest) as (st & -> & _).
    intros [= <-]. by exists st.
  - cbn [mbind Res_bind mret Res_ret]. intros [= <-].
    exists []. by rewrite app_nil_r, withStack_same.
  - destruct (dotnetFrame line) as [fr|]; [|done].
    cbn [mbind Res_bind mret Res_ret].
    destruct (addFrame_stack fr e rest) as (st & -> & _).
    intros Hrun. apply IH in Hrun as [st' ->].
    exists (st ++ st'). by rewrite withStack_app.
  - cbn [mbind Res_bind mret Res_ret]. apply IH.
Qed.

Lemma fillDotnetStacktrace_frames stacktrace e rest res :
  fillDotnetStacktrace stacktrace (e :: rest) = Ok res →
  ∃ st, res = withStack e st :: rest.
Proof.
  unfold fillDotnetStacktrace.
  destruct (ReadLine (NewReader stacktrace)) as [[_ r] _].
  destruct (ReadLine r) as [[line r'] ok]. destruct ok.
  - cbn [alter list_alter]. intros [st ->]%dotnetLoop_frames. by exists st.
  - intros [= <-]. exists (Stack e). by rewrite withStack_same.
Qed.

Lemma fillGoStacktrace_frames stacktrace e rest :
  ∃ st, fillGoStacktrace stacktrace (e :: rest) = Ok (withStack e st :: rest).
Proof.
  unfold fillGoStacktrace.
  destruct (ReadLine (NewReader stacktrace)) as [[_ r] _].
  destruct (ReadLine r) as [[line r'] ok]. destruct ok.
  - cbn [alter list_alter].
    destruct (goLoop_frames r' line EmptyString 0 (withStack e []) rest)
      as (st & -> & _).
    by exists st.
  - exists (Stack e). by rewrite withStack_same.
Qed.

(** *** [parseException] *)

Lemma wellChained_single g exceptionType message st :
  wellChained g [mkException (nextID g) exceptionType message st None] (nextGen g).
Proof.
  split; [done|split].
  - intros [|i] e [=]. subst e. simpl. split; [|done].
    unfold nextID. f_equal. lia.
  - split; simpl; [done|lia].
Qed.

Lemma keeps_head e res :
  keeps [e] res →
  ∃ e' rest, res = e' :: rest ∧ Type_ e' = Type_ e ∧ Message e' = Message e.
Proof.
  intros Hk. destruct (Hk 0%nat e eq_refl) as (e' & He' & Ht & Hm).
  destruct res as [|x rest]; [done|]. injection He' as ->. by exists e', rest.
Qed.

Lemma parseException_wellChained exceptionType message stacktrace language g :
  whenReturns (parseException exceptionType message stacktrace language g)
    (λ res g',
       wellChained g res g'
       ∧ keeps [mkException (nextID g) exceptionType message [] None] res).
Proof.
  unfold parseException. rewrite G_bind_newID. cbv zeta.
  set (e0 := mkException (nextID g) exceptionType message [] None).
  assert (wellChained g [e0] (nextGen g)) as H0 by apply wellChained_single.
  assert (∀ st, wellChained g [withStack e0 st] (nextGen g)
                ∧ keeps [e0] [withStack e0 st]) as Hst.
  { intros st. split; [apply wellChained_single|].
    intros [|i] e [=]. subst e. by exists (withStack e0 st). }
  assert (whenReturns (fillJavaStacktrace stacktrace [e0] (nextGen g))
            (λ res g', wellChained g res g' ∧ keeps [e0] res)) as Hjava.
  { unfold fillJavaStacktrace.
    destruct (ReadLine (NewReader stacktrace)) as [[_ r] _].
    destruct (ReadLine r) as [[line r'] ok]. destruct ok.
    - by apply chain_javaLoop.
    - split; [done|apply keeps_refl]. }
  destruct (String.eqb stacktrace EmptyString);
    [split; [done|apply keeps_refl]|].
  destruct (String.eqb language "java"); [done|].
  destruct (String.eqb language "python").
  { unfold fillPythonStacktrace. cbv zeta.
    destruct (_ <? 0); [split; [done|apply keeps_refl]|].
    by apply chain_pythonLoop. }
  destruct (String.eqb language "javascript").
  { destruct (fillJavaScriptStacktrace_frames stacktrace e0 []) as [st ->].
    apply Hst. }
  destruct (String.eqb language "dotnet").
  { unfold lift.
    destruct (fillDotnetStacktrace stacktrace [e0]) as [res|] eqn:Hrun; [|done].
    apply fillDotnetStacktrace_frames in Hrun as [st ->]. apply Hst. }
  destruct (String.eqb language "php"); [done|].
  destruct (String.eqb language "go").
  { destruct (fillGoStacktrace_frames stacktrace e0 []) as [st ->]. apply Hst. }
  split; [done|apply keeps_refl].
Qed.

(** X6.  Whenever [parseException] returns, for whatever language and
    stack trace: the list is not empty and its first record has the type
    and the message given; the records hold the identifiers drawn, in the
    order drawn, one draw for each record and none beyond; and every record
    names the record after it as its cause, the last one having none. *)
Theorem parseException_chain
    exceptionType message stacktrace language g exceptions g' :
  parseException exceptionType message stacktrace language g
  = Ok (exceptions, g') →
  (∃ e rest, exceptions = e :: rest
             ∧ Type_ e = exceptionType ∧ Message e = message)
  ∧ chained g exceptions
  ∧ drawn g (length exceptions) g'.
Proof.
  intros Hrun.
  destruct (whenReturns_Ok _ _ _ _
              (parseException_wellChained exceptionType message stacktrace
                 language g) Hrun) as [(_ & Hc & Hd) Hk].
  apply keeps_head in Hk as (e & rest & -> & Ht & Hm).
  split; [by exists e, rest|]. by split.
Qed.

Lemma parseException_chain_witness :
  ∃ exceptions g',
    parseException "T" "m" Sample.javaTrace "java" Sample.g0
    = Ok (exceptions, g')
    ∧ length exceptions = 2%nat
    ∧ chained Sample.g0 exceptions
    ∧ drawn Sample.g0 2 g'.
Proof.
  eexists _, _. split; [vm_compute; reflexivity|].
  split; [reflexivity|].
  refine (proj2 (parseException_chain "T" "m" Sample.javaTrace "java"
                   Sample.g0 _ _ _)).
  vm_compute; reflexivity.
Defined.

(** ** Java traces that cannot panic *)

Lemma safe_javaPeek causeType r :
  (∀ line r' l exception g,
     (length r' < length r)%nat → safeCause line → Forall safeCause r' →
     ∃ res, javaLoop line r' l exception g = Ok res) →
  Forall safeCause r →
  ∀ causeMessage l exception g,
    ∃ res, javaPeek javaLoop l exception causeType r causeMessage g = Ok res.
Proof.
  induction r as [|line r IH]; intros Hloop Hr msg l cur g; cbn [javaPeek].
  - unfold mbind, G_bind. rewrite appendCause_run. by eexists.
  - apply Forall_cons in Hr as [Hline Hr].
    rewrite G_bind_lift. destruct (javaIsFrame_total line) as [stop ->].
    destruct stop.
    + unfold mbind, G_bind. rewrite appendCause_run.
      apply Hloop; [simpl; lia|done..].
    + apply IH; [|done]. intros. apply Hloop; [simpl; lia|done..].
Qed.

Lemma safe_javaLoop r : ∀ line l exception g,
  safeCause line → Forall safeCause r →
  ∃ res, javaLoop line r l exception g = Ok res.
Proof.
  induction r as [r IH] using (induction_ltof1 _ length).
  unfold ltof in IH.
  intros line l cur g Hline Hr. rewrite javaLoop_eq.
  assert (∀ l', ∃ res,
            match r return G (list Exception) with
            | [] => mret l'
            | line :: r => javaLoop line r l' cur
            end g = Ok res) as Hskip.
  { intros l'. destruct r as [|line' r']; [by eexists|].
    apply Forall_cons in Hr as [Hline' Hr]. apply IH; [simpl; lia|done..]. }
  destruct (HasPrefix line tabAt) eqn:Hp.
  - rewrite G_bind_lift. destruct (javaFrame_total line Hp) as [fr ->].
    apply Hskip.
  - destruct (HasPrefix line causedBy) eqn:Hc; [|apply Hskip].
    rewrite G_bind_lift. specialize (Hline Hc).
    destruct (javaCauseHead line) as [[ty msg]|]; [|done].
    apply safe_javaPeek; [|done]. intros. by apply IH.
Qed.

(** X7.  Cutting the type and the message out of a "Caused by: " line is
    the only step of the Java parser that can panic: when it succeeds on
    every line after the first that starts so, [parseException] returns
    for the languages java and php. *)
Theorem parseException_java_returns
    exceptionType message stacktrace language g :
  language = "java" ∨ language = "php" →
  Forall safeCause (tail (NewReader stacktrace)) →
  ∃ exceptions g',
    parseException exceptionType message stacktrace language g
    = Ok (exceptions, g').
Proof.
  intros Hlang Hsafe.
  assert (∃ res,
            fillJavaStacktrace stacktrace
              [mkException (nextID g) exceptionType message [] None] (nextGen g)
            = Ok res) as [[excs g'] Hjava].
  { unfold fillJavaStacktrace.
    destruct (NewReader stacktrace) as [|first [|line r]];
      cbn [ReadLine tail] in *; [by eexists..|].
    apply Forall_cons in Hsafe as [Hline Hr]. by apply safe_javaLoop. }
  exists excs, g'. unfold parseException. rewrite G_bind_newID. cbv zeta.
  destruct (String.eqb_spec stacktrace EmptyString) as [->|Hst].
  { by injection Hjava as <- <-. }
  by destruct Hlang as [-> | ->].
Qed.

Lemma parseException_java_returns_witness :
  ∃ exceptions g',
    parseException "T" "m" Sample.javaTrace "php" Sample.g0
    = Ok (exceptions, g').
Proof.
  apply (parseException_java_returns "T" "m" Sample.javaTrace "php" Sample.g0).
  - by right.
  - repeat constructor; intros H; (reflexivity || discriminate H).
Defined.

(** ** The records of a cause *)

Lemma linked_app g l g1 p :
  linked g l → drawn g (length l) g1 → chained g1 p → linked g (l ++ p).
Proof.
  intros Hl [Hs Hn] Hp i e He. rewrite length_app.
  destruct (Nat.lt_ge_cases i (length l)) as [Hlt|Hge].
  - rewrite lookup_app_l in He by done.
    destruct (Hl i e He) as [Hid [Hcause|[Hnext Hcause]]]; split; try done;
      [by left|right]. split; [lia|done].
  - rewrite lookup_app_r in He by done.
    destruct (Hp _ e He) as [Hid Hcause]. rewrite Hs, Hn in Hid, Hcause.
    split; [rewrite Hid; f_equal; lia|].
    destruct (decide _) as [Hnext|_]; [right|by left].
    split; [lia|]. rewrite Hcause. do 2 f_equal. lia.
Qed.

Lemma drawn_app g n g1 m g2 :
  drawn g n g1 → drawn g1 m g2 → drawn g (n + m) g2.
Proof. intros [Hs Hn] [Hs' Hm]. split; [congruence|lia]. Qed.

Lemma parseEvents_linked g language events : ∀ l g1,
  linked g l → drawn g (length l) g1 →
  whenReturns (parseEvents events language l g1)
    (λ res g2,
       linked g res ∧ drawn g (length res) g2
       ∧ (length l + length (filter (λ event, isExceptionEvent event = true) events)
          ≤ length res)%nat).
Proof.
  induction events as [|event events IH]; intros l g1 Hl Hd; cbn [parseEvents].
  - split; [done|]. split; [done|]. cbn [filter list_filter length]. lia.
  - rewrite filter_cons.
    destruct (isExceptionEvent event) eqn:Hev.
    + destruct (decide _) as [_|Hne]; [|done].
      unfold mbind, G_bind.
      pose proof (parseException_wellChained
                    (stringAttr (Event_Attributes event) AttributeExceptionType)
                    (stringAttr (Event_Attributes event) AttributeExceptionMessage)
                    (stringAttr (Event_Attributes event) AttributeExceptionStacktrace)
                    language g1) as Hparse.
      destruct (parseException _ _ _ _ g1) as [[parsed g1']|]; [|done].
      destruct Hparse as [(Hne & Hc & Hd') _].
      eapply whenReturns_mono.
      * apply IH; [by eapply linked_app|].
        rewrite length_app. by eapply drawn_app.
      * intros res g2 (Hres & Hd2 & Hlen). split; [done|]. split; [done|].
        rewrite length_app in Hlen. cbn [length].
        destruct parsed; [done|]. simpl in Hlen. lia.
    + destruct (decide _) as [Heq|_]; [done|]. by apply IH.
Qed.

Lemma exceptionEvents_none span :
  hasExceptions span = false → exceptionEvents span = 0%nat.
Proof.
  unfold hasExceptions, exceptionEvents.
  induction (Span_Events span) as [|event events IH]; [done|].
  cbn [existsb]. intros [Hev Hrest]%orb_false_iff.
  rewrite filter_cons. destruct (decide _) as [Heq|_]; [congruence|by apply IH].
Qed.

(** X8.  Whenever [makeCause] returns: the records of the cause (none
    when the cause is nil) hold the identifiers drawn during the call, in
    the order drawn, one draw for each record and none beyond; a record
    that names a cause names the record after it; and the cause of a span
    with the error status has at least one record for each exception event
    of the span. *)
Theorem makeCause_records span attributes resource w r w' :
  makeCause span attributes resource w = Ok (r, w') →
  let records := from_option Exceptions [] (cause r) in
  linked (gen w) records
  ∧ drawn (gen w) (length records) (gen w')
  ∧ (Status_Code (Span_Status span) = StatusCodeError →
     (exceptionEvents span ≤ length records)%nat).
Proof.
  intros Hrun records. subst records.
  assert (linked (gen w) []) as Hnil by (by intros i e).
  assert (drawn (gen w) 0 (gen w)) as Hzero by (split; [done|lia]).
  destruct (decide (Status_Code (Span_Status span) = StatusCodeError)) as [Hc|Hc].
  - rewrite makeCause_error in Hrun by done.
    destruct (hasExceptions span) eqn:Hhas.
    + unfold mbind, M_bind, liftG, mret, M_ret in Hrun.
      pose proof (parseEvents_linked (gen w) (language resource)
                    (Span_Events span) [] (gen w) Hnil Hzero) as Hparse.
      destruct (parseEvents _ _ _ _) as [[excs g']|e]; simpl in Hrun; [|done].
      destruct (statusFlags span) as [[? ?] ?]. injection Hrun as <- <-.
      destruct Hparse as (Hl & Hd & Hlen). simpl.
      split; [done|]. split; [done|]. intros _. exact Hlen.
    + apply exceptionEvents_none in Hhas. rewrite Hhas.
      unfold mbind, M_bind, rangeMap, newMap, liftG, newSegmentIDHex, mret, M_ret
        in Hrun.
      destruct (filterAttributes _ _) as [message kept].
      destruct (statusFlags span) as [[? ?] ?].
      destruct (negb _); simpl in Hrun; injection Hrun as <- <-; simpl.
      * split; [|split; [split; simpl; [done|lia]|lia]].
        intros [|i] e [=]. subst e. simpl. split; [f_equal; lia|by left].
      * split; [done|]. split; [done|lia].
  - rewrite makeCause_early_return in Hrun by done. injection Hrun as <- <-.
    simpl. split; [done|]. by split.
Qed.

Lemma makeCause_records_witness :
  ∃ r w',
    makeCause Sample.javaSpan 0%nat (Sample.resourceOf "java") Sample.w0
    = Ok (r, w')
    ∧ linked Sample.g0 (from_option Exceptions [] (cause r))
    ∧ drawn Sample.g0 2 (gen w').
Proof.
  eexists _, _. split; [vm_compute; reflexivity|].
  destruct (makeCause_records Sample.javaSpan 0%nat (Sample.resourceOf "java")
              Sample.w0 _ _ ltac:(vm_compute; reflexivity)) as (Hl & Hd & _).
  split; [exact Hl|exact Hd].
Defined.

(** ** Events that are no exception events *)

Lemma hasExceptions_filter events :
  existsb isExceptionEvent
    (filter (λ event, isExceptionEvent event = true) events)
  = existsb isExceptionEvent events.
Proof.
  induction events as [|event events IH]; [done|].
  rewrite filter_cons. cbn [existsb].
  destruct (isExceptionEvent event) eqn:Hev;
    destruct (decide _); try done; cbn [existsb]; by rewrite ?Hev, IH.
Qed.

Lemma parseEvents_filter language events : ∀ exceptions g,
  parseEvents (filter (λ event, isExceptionEvent event = true) events)
    language exceptions g
  = parseEvents events language exceptions g.
Proof.
  induction events as [|event events IH]; intros l g; [done|].
  rewrite filter_cons. cbn [parseEvents].
  destruct (isExceptionEvent event) eqn:Hev; destruct (decide _); try done.
  cbn [parseEvents]. rewrite Hev. unfold mbind, G_bind.
  destruct (parseException _ _ _ _ g) as [[parsed g']|]; [|done].
  by rewrite IH.
Qed.

(** X9.  An event whose name is not "exception" has no part in the
    result: [makeCause] does on a span what it does on the span with its
    exception events only, panic included. *)
Theorem makeCause_only_exception_events span attributes resource w :
  makeCause (exceptionEventsOnly span) attributes resource w
  = makeCause span attributes resource w.
Proof.
  unfold makeCause, exceptionEventsOnly, hasExceptions, statusFlags.
  cbn [Span_Status Span_Events Span_Attributes].
  destruct (decide _); [done|].
  rewrite hasExceptions_filter.
  destruct (existsb _ _); [|done].
  unfold mbind, M_bind, liftG. by rewrite parseEvents_filter.
Qed.

(** ** Python traces without a nested cause *)

Lemma index_lookup (l : list string) (i : nat) x :
  l !! i = Some x → index l (Z.of_nat i) = Ok x.
Proof.
  intros Hx. unfold index. pose proof (lookup_lt_Some _ _ _ Hx) as Hlt.
  rewrite Nat2Z.id, Hx.
  destruct (Z.leb_spec 0 (Z.of_nat i)); [|lia].
  by destruct (Z.ltb_spec (Z.of_nat i) (Z.of_nat (length l))); [|lia].
Qed.

(** Without a nested cause the loop walks the lines upwards from the one
    it starts at, and the record gets their frames in that order. *)
Lemma pythonLoop_frames lines n : ∀ e rest g,
  (n ≤ length lines)%nat →
  Forall pythonPlain (take n lines) →
  pythonLoop lines n (e :: rest) 0%nat g
  = Ok (withStack e (Stack e ++ omap pythonLineFrame (reverse (take n lines)))
          :: rest, g).
Proof.
  induction n as [|n IH]; intros e rest g Hn Hall; cbn [pythonLoop].
  - rewrite take_0. cbn [reverse omap list_omap]. unfold mret, G_ret.
    by rewrite app_nil_r, withStack_same.
  - destruct (lookup_lt_is_Some_2 lines n ltac:(lia)) as [line Hline].
    rewrite (take_S_r _ _ _ Hline) in *.
    apply Forall_app in Hall as [Hall [[Hno Hsafe] _]%Forall_cons].
    rewrite G_bind_lift, (index_lookup _ _ _ Hline).
    rewrite reverse_app, reverse_singleton, omap_app.
    cbn [omap list_omap]. unfold pythonLineFrame at 1.
    destruct (HasPrefix line fileMark) eqn:Hp.
    + specialize (Hsafe eq_refl). rewrite G_bind_lift.
      destruct (pythonFrame line) as [fr|]; [|done].
      destruct fr as [f|]; cbn [addFrame alter list_alter app].
      * rewrite IH by (done || lia). unfold appendFrame.
        do 3 f_equal. by rewrite withStack_app.
      * by rewrite IH by (done || lia).
    + rewrite Hno. by rewrite IH by (done || lia).
Qed.

(** X10.  The Python parser walks the lines of the trace from the last
    but one up to the first.  When none of them starts a nested cause and
    the frame of each file line among them can be cut out,
    [parseException] returns one record, without a draw beyond the first,
    whose frames are those of the file lines with two commas, in the
    reverse of the order of the lines; the last line is never read. *)
Theorem parseException_python_frames exceptionType message stacktrace g :
  Forall pythonPlain (walked (Split stacktrace (String lf EmptyString))) →
  parseException exceptionType message stacktrace "python" g
  = Ok ([mkException (nextID g) exceptionType message
           (omap pythonLineFrame
              (reverse (walked (Split stacktrace (String lf EmptyString))))) None],
        nextGen g).
Proof.
  intros Hall.
  unfold parseException. rewrite G_bind_newID. cbv zeta.
  destruct (String.eqb_spec stacktrace EmptyString) as [->|Hst]; [done|].
  cbn [String.eqb Ascii.eqb Bool.eqb]. cbv iota.
  unfold fillPythonStacktrace, walked in *. cbv zeta.
  set (lines := Split stacktrace (String lf EmptyString)) in *.
  destruct (Z.ltb_spec (Z.of_nat (length lines) - 2) 0) as [Hshort|Hlong].
  - replace (length lines - 1)%nat with 0%nat
      by (destruct lines as [|? [|? ?]]; simpl in *; lia).
    by rewrite take_0.
  - cbn [alter list_alter].
    replace (Z.to_nat (Z.of_nat (length lines) - 2 + 1))
      with (length lines - 1)%nat by lia.
    by rewrite pythonLoop_frames by (done || lia).
Qed.

Lemma parseException_python_frames_witness :
  parseException "T" "m"
    ("Traceback (most recent call last):" +:+ Sample.nl
     +:+ "  File 'a.py', line 1, in f" +:+ Sample.nl
     +:+ "  File 'b.py', line 2, in g" +:+ Sample.nl
     +:+ "T: m") "python" Sample.g0
  = Ok ([mkException "0" "T" "m"
           [mkStackFrame "b.py" "g" 2; mkStackFrame "a.py" "f" 1] None],
        nextGen Sample.g0).
Proof.
  refine (parseException_python_frames "T" "m" _ Sample.g0 _).
  repeat constructor; intros H; (reflexivity || discriminate H).
Defined.

(** ** .NET traces *)

(** A frame line without a file part never panics. *)
Lemma dotnetFrame_without_in line :
  HasPrefix line tabAt = true → Index line " in " < 0 →
  ∃ fr, dotnetFrame line = Ok fr.
Proof.
  intros Hp Hin. unfold dotnetFrame. cbv zeta.
  destruct (Z.leb_spec 0 (Index line " in ")); [lia|].
  pose proof (LastIndexByte_range line ")") as Hrange.
  destruct (Z.leb_spec 0 (LastIndexByte line ")")) as [Hge|Hlt]; [|by eexists].
  pose proof (LastIndexByte_get line ")" Hge) as Hget.
  assert (4 <= LastIndexByte line ")") as Hfour.
  { destruct (HasPrefix_tabAt _ Hp) as [rest ->].
    change (tabAt +:+ rest)
      with (String tab (String "a" (String "t" (String " " rest)))) in *.
    destruct (Z.to_nat (LastIndexByte _ ")")) as [|[|[|[|k]]]] eqn:Hk;
      simpl in Hget; try discriminate Hget. lia. }
  rewrite slice_ok by (change (len tabAt) with 4; lia).
  by eexists.
Qed.

Lemma dotnetSafe_frame line :
  dotnetSafe line →
  ∃ fr, (if HasPrefix line tabAt then dotnetFrame line else Ok None) = Ok fr
        ∧ dotnetLineFrame line = fr.
Proof.
  intros Hsafe. unfold dotnetLineFrame, dotnetSafe in *.
  destruct (HasPrefix line tabAt) eqn:Hp; [|by eexists].
  destruct (Z.leb_spec 0 (Index line " in ")) as [Hin|Hin].
  - specialize (Hsafe eq_refl Hin).
    destruct (dotnetFrame line) as [fr|]; [by eexists|done].
  - destruct (dotnetFrame_without_in line Hp Hin) as [fr ->]. by eexists.
Qed.

Lemma dotnetLoop_safe_frames r : ∀ line e rest,
  Forall dotnetSafe (line :: r) →
  dotnetLoop line r (e :: rest)
  = Ok (withStack e (Stack e ++ omap dotnetLineFrame (line :: r)) :: rest).
Proof.
  induction r as [|line' r IH]; intros line e rest Hall;
    apply Forall_cons in Hall as [Hsafe Hall];
    destruct (dotnetSafe_frame line Hsafe) as (fr & Hfr & Hlf);
    cbn [dotnetLoop omap list_omap]; rewrite Hlf;
    destruct (HasPrefix line tabAt) eqn:Hp.
  - rewrite Hfr. cbn [mbind Res_bind mret Res_ret]. f_equal.
    destruct fr as [f|]; simpl; [done|]. by rewrite app_nil_r, withStack_same.
  - injection Hfr as <-. cbn [mbind Res_bind mret Res_ret].
    by rewrite app_nil_r, withStack_same.
  - rewrite Hfr. cbn [mbind Res_bind mret Res_ret].
    destruct fr as [f|]; cbn [addFrame alter list_alter].
    + unfold appendFrame. rewrite (IH line' _ rest Hall).
      do 2 f_equal. by rewrite withStack_app.
    + by rewrite (IH line' e rest Hall).
  - injection Hfr as <-. cbn [mbind Res_bind mret Res_ret].
    by rewrite (IH line' e rest Hall).
Qed.

(** X11.  A frame line of a .NET trace that has no " in " cannot panic.
    When the file part of every frame line that has one can be cut out,
    [parseException] returns for the language dotnet, without a draw beyond
    the first: the one record has the frames of the lines after the first
    that start with a tab and "at ", in the order of the lines. *)
Theorem parseException_dotnet_frames exceptionType message stacktrace g :
  Forall dotnetSafe (tail (NewReader stacktrace)) →
  parseException exceptionType message stacktrace "dotnet" g
  = Ok ([mkException (nextID g) exceptionType message
           (omap dotnetLineFrame (tail (NewReader stacktrace))) None],
        nextGen g).
Proof.
  intros Hsafe.
  unfold parseException. rewrite G_bind_newID. cbv zeta.
  destruct (String.eqb_spec stacktrace EmptyString) as [->|Hst]; [done|].
  cbn [String.eqb Ascii.eqb Bool.eqb]. cbv iota.
  unfold fillDotnetStacktrace.
  destruct (NewReader stacktrace) as [|first [|line r]]; cbn [ReadLine tail] in *.
  - done.
  - done.
  - cbn [alter list_alter]. by rewrite dotnetLoop_safe_frames.
Qed.

Lemma parseException_dotnet_frames_witness :
  parseException "T" "m"
    ("E" +:+ Sample.nl +:+ tabAt +:+ "f() in a.cs:line 7" +:+ Sample.nl
     +:+ tabAt +:+ "g(x)" +:+ Sample.nl +:+ "more") "dotnet" Sample.g0
  = Ok ([mkException "0" "T" "m"
           [mkStackFrame "a.cs" "f()" 7; mkStackFrame EmptyString "g(x)" 0]
           None],
        nextGen Sample.g0).
Proof.
  refine (parseException_dotnet_frames "T" "m" _ Sample.g0 _).
  repeat constructor; intros H; try discriminate H; intros _; reflexivity.
Defined.

(** ** The file lines of a Python trace *)

(** X12.  The frame of a file line of a Python trace cannot be cut out
    exactly when the line has two commas and fewer than nine bytes before
    the first: the path is taken from the ninth byte on, whatever the
    line holds before it. *)
Theorem pythonFrame_panics line :
  returns (pythonFrame line) = false
  ↔ ∃ filePart linePart inPart,
      Split line "," = [filePart; linePart; inPart] ∧ len filePart < 9.
Proof.
  unfold pythonFrame.
  destruct (Split line ",") as [|filePart [|linePart [|inPart [|more parts]]]];
    try (split; [done|by intros (? & ? & ? & [=] & _)]).
  assert (∃ lineNumber,
            (if HasPrefix linePart " line "
             then lineStr ← sliceFrom linePart 6; mret (Atoi lineStr).1
             else mret 0) = Ok lineNumber) as [lineNumber ->].
  { destruct (HasPrefix linePart " line ") eqn:Hp; [|by eexists].
    apply prefix_split in Hp as [rest ->].
    rewrite sliceFrom_ok; [by eexists|lia|].
    change (" line " +:+ rest)
      with (String " " (String "l" (String "i" (String "n" (String "e"
             (String " " rest)))))).
    rewrite !len_String. pose proof (len_nonneg rest). lia. }
  assert (∃ label,
            (if HasPrefix inPart " in " then sliceFrom inPart 4
             else mret EmptyString) = Ok label) as [label ->].
  { destruct (HasPrefix inPart " in ") eqn:Hp; [|by eexists].
    apply prefix_split in Hp as [rest ->].
    rewrite sliceFrom_ok; [by eexists|lia|].
    change (" in " +:+ rest)
      with (String " " (String "i" (String "n" (String " " rest)))).
    rewrite !len_String. pose proof (len_nonneg rest). lia. }
  pose proof (len_nonneg filePart) as Hlen.
  destruct (Z.lt_ge_cases (len filePart) 9) as [Hshort|Hlong].
  - unfold slice at 1.
    replace ((0 <=? 8) && (8 <=? len filePart - 1)
             && (len filePart - 1 <=? len filePart)) with false.
    + split; [|done]. intros _. by exists filePart, linePart, inPart.
    + symmetry. apply andb_false_iff. left. apply andb_false_iff. right.
      apply Z.leb_gt. lia.
  - rewrite slice_ok by lia. cbn [mbind Res_bind mret Res_ret returns].
    split; [done|]. intros (a & b & c & [= <- <- <-] & Hlt). lia.
Qed.

Lemma pythonFrame_panics_witness :
  returns (pythonFrame "  File x,a,b") = false.
Proof.
  apply (proj2 (pythonFrame_panics "  File x,a,b")).
  exists "  File x", "a", "b". split; [reflexivity|]. unfold len. simpl. lia.
Defined.

(** ** JavaScript traces *)

Lemma javaScriptFrame_nonDefault line f :
  javaScriptFrame line = Ok (Some f) → nonDefault f.
Proof.
  unfold javaScriptFrame. cbv zeta.
  destruct (closesParen _ _) as [ok|]; [|done]. cbn [mbind Res_bind].
  destruct (if ok then _ else _) as [[label path]|]; [|done].
  cbn [mbind Res_bind].
  destruct (indexOf _ _ _) as [second|]; [|done]. cbn [mbind Res_bind].
  destruct (if _ && _ && _ then _ else _) as [[path' lineIdx]|]; [|done].
  cbn [mbind Res_bind].
  destruct (String.eqb_spec path' EmptyString) as [Hpath|Hpath];
    destruct (String.eqb_spec label EmptyString) as [Hlabel|Hlabel];
    destruct (Z.eqb_spec lineIdx 0) as [Hline|Hline];
    cbn [negb orb mret Res_ret]; intros [= <-]; unfold nonDefault; simpl; auto.
Qed.

Lemma javaScriptLineFrame_of line :
  ∃ fr, (if HasPrefix line "    at " then javaScriptFrame line else Ok None)
        = Ok fr
        ∧ javaScriptLineFrame line = fr.
Proof.
  unfold javaScriptLineFrame.
  destruct (HasPrefix line "    at ") eqn:Hp; [|by eexists].
  destruct (javaScriptFrame_total line Hp) as [fr ->]. by eexists.
Qed.

Lemma javaScriptLoop_line_frames r : ∀ line e rest,
  javaScriptLoop line r (e :: rest)
  = Ok (withStack e (Stack e ++ omap javaScriptLineFrame (line :: r)) :: rest).
Proof.
  induction r as [|line' r IH]; intros line e rest;
    destruct (javaScriptLineFrame_of line) as (fr & Hfr & Hlf);
    cbn [javaScriptLoop omap list_omap]; rewrite Hlf;
    destruct (HasPrefix line "    at ") eqn:Hp.
  - rewrite Hfr. cbn [mbind Res_bind mret Res_ret]. f_equal.
    destruct fr as [f|]; simpl; [done|]. by rewrite app_nil_r, withStack_same.
  - injection Hfr as <-. cbn [mbind Res_bind mret Res_ret].
    by rewrite app_nil_r, withStack_same.
  - rewrite Hfr. cbn [mbind Res_bind mret Res_ret].
    destruct fr as [f|]; cbn [addFrame alter list_alter].
    + unfold appendFrame. rewrite (IH line' _ rest).
      do 2 f_equal. by rewrite withStack_app.
    + by rewrite (IH line' e rest).
  - injection Hfr as <-. cbn [mbind Res_bind mret Res_ret].
    by rewrite (IH line' e rest).
Qed.

Lemma javaScriptLineFrame_nonDefault lines :
  Forall nonDefault (omap javaScriptLineFrame lines).
Proof.
  induction lines as [|line lines IH]; cbn [omap list_omap]; [done|].
  destruct (javaScriptLineFrame line) as [f|] eqn:Hf; [|done].
  constructor; [|done]. unfold javaScriptLineFrame in Hf.
  destruct (HasPrefix line "    at "); [|done].
  destruct (javaScriptFrame line) as [fr|] eqn:Hfr; [|done]. subst fr.
  by eapply javaScriptFrame_nonDefault.
Qed.

(** X13.  For the language javascript [parseException] always returns one
    record, without a draw beyond the first: its frames are those of the
    lines after the first that start with four blanks and "at ", in the
    order of the lines, and none of them is a frame with an empty path, an
    empty label and the line 0. *)
Theorem parseException_javascript_frames exceptionType message stacktrace g :
  parseException exceptionType message stacktrace "javascript" g
  = Ok ([mkException (nextID g) exceptionType message
           (omap javaScriptLineFrame (tail (NewReader stacktrace))) None],
        nextGen g)
  ∧ Forall nonDefault (omap javaScriptLineFrame (tail (NewReader stacktrace))).
Proof.
  split; [|apply javaScriptLineFrame_nonDefault].
  unfold parseException. rewrite G_bind_newID. cbv zeta.
  destruct (String.eqb_spec stacktrace EmptyString) as [->|Hst]; [done|].
  cbn [String.eqb Ascii.eqb Bool.eqb]. cbv iota.
  unfold fillJavaScriptStacktrace.
  destruct (NewReader stacktrace) as [|first [|line r]]; cbn [ReadLine tail] in *.
  - done.
  - done.
  - cbn [alter list_alter]. by rewrite javaScriptLoop_line_frames.
Qed.

(** ** When [makeCause] returns *)

Lemma returns_parseException_gen exceptionType message stacktrace language h1 h2 :
  returns (parseException exceptionType message stacktrace language h1)
  = returns (parseException exceptionType message stacktrace language h2).
Proof.
  pose proof (similar_parseException h1 h2 exceptionType message stacktrace
                language h1 h2 (aligned_start h1 h2)) as Hboth.
  unfold bothG, bothRes in Hboth.
  by destruct (parseException _ _ _ _ h1), (parseException _ _ _ _ h2).
Qed.

Lemma eventParses_gen language h1 h2 event :
  eventParses language h1 event → eventParses language h2 event.
Proof.
  unfold eventParses. intros H Hev.
  by rewrite (returns_parseException_gen _ _ _ _ h2 h1), H.
Qed.

Lemma parseEvents_returns language events : ∀ exceptions g,
  returns (parseEvents events language exceptions g) = true
  ↔ Forall (eventParses language g) events.
Proof.
  induction events as [|event events IH]; intros l g; cbn [parseEvents].
  - split; [by constructor|done].
  - rewrite Forall_cons. unfold eventParses at 1.
    destruct (isExceptionEvent event) eqn:Hev.
    + unfold mbind, G_bind.
      destruct (parseException _ _ _ _ g) as [[parsed g']|]; simpl.
      * rewrite IH. split.
        -- intros Hall. split; [done|].
           eapply Forall_impl; [exact Hall|]. intros ev. apply eventParses_gen.
        -- intros [_ Hall].
           eapply Forall_impl; [exact Hall|]. intros ev. apply eventParses_gen.
      * split; [done|]. intros [Hfalse _]. by specialize (Hfalse eq_refl).
    + rewrite IH. split; [by split|by intros [_ ?]].
Qed.

(** X14.  [makeCause] returns exactly when, the span having the error
    status, the parse of each of its exception events returns: it panics
    through [parseException] only, and the first event whose parse panics
    ends the call. *)
Theorem makeCause_returns_iff span attributes resource w :
  returns (makeCause span attributes resource w) = true
  ↔ (Status_Code (Span_Status span) = StatusCodeError →
     Forall (eventParses (language resource) (gen w)) (Span_Events span)).
Proof.
  destruct (decide (Status_Code (Span_Status span) = StatusCodeError)) as [Hc|Hc].
  - rewrite makeCause_error by done. unfold hasExceptions.
    rewrite <-(parseEvents_returns _ _ []).
    destruct (existsb isExceptionEvent (Span_Events span)) eqn:Hhas.
    + unfold mbind, M_bind, liftG, mret, M_ret.
      destruct (parseEvents _ _ _ _) as [[excs g']|e]; simpl.
      * destruct (statusFlags span) as [[? ?] ?]. by split.
      * split; [done|]. intros H. by specialize (H Hc).
    + unfold mbind, M_bind, rangeMap, newMap, liftG, newSegmentIDHex, mret, M_ret.
      destruct (filterAttributes _ _) as [message kept].
      destruct (statusFlags span) as [[? ?] ?].
      split.
      * intros _ _. apply parseEvents_returns.
        clear -Hhas. induction (Span_Events span) as [|ev evs IH]; [done|].
        cbn [existsb] in Hhas. apply orb_false_iff in Hhas as [Hev Hrest].
        constructor; [|by apply IH]. intros Hev'. congruence.
      * intros _. by destruct (negb _).
  - rewrite makeCause_early_return by done. by split.
Qed.

Lemma makeCause_returns_iff_witness :
  returns (makeCause Sample.javaSpan 0%nat (Sample.resourceOf "java") Sample.w0)
  = true.
Proof.
  apply (proj2 (makeCause_returns_iff Sample.javaSpan 0%nat
                  (Sample.resourceOf "java") Sample.w0)).
  intros _. repeat constructor.
Defined.
